(** * SimpleVector: a shallow embedding of [simple_vector.h]

    The container of [src/simple-vector/simple_vector.h] is embedded as
    pure functions over an explicit heap.  Iterators are raw pointers in the
    source, so they are modelled as a block address plus an offset; a
    dereference outside a live block is undefined behaviour ([UB]), a failed
    [assert] is [AssertFail], and a C++ exception is [Throw]. *)

From stdpp Require Import base list numbers option.

Local Open Scope Z_scope.

(** ** Machine integers *)

(** [size_t] is a 64-bit unsigned integer; arithmetic on it wraps around. *)
Definition SIZE_MODULUS : Z := 2 ^ 64.

Definition wrap (z : Z) : Z := z mod SIZE_MODULUS.

Definition is_size_t (z : Z) : Prop := 0 <= z < SIZE_MODULUS.

(** ** Outcomes of a call *)

Inductive exn : Type :=
  | out_of_range.

Inductive outcome (A : Type) : Type :=
  | Ok (a : A)
  | Throw (e : exn)
  | AssertFail
  | UB.

Arguments Ok {A} a.
Arguments Throw {A} e.
Arguments AssertFail {A}.
Arguments UB {A}.

(** ** Pointers *)

(** A pointer designates slot [off] of the block at address [blk];
    [blk = None] is the null pointer. *)
Record Ptr : Type := MkPtr { blk : option nat; off : Z }.

Definition nullptr : Ptr := MkPtr None 0.

Definition ptr_add (p : Ptr) (n : Z) : Ptr := MkPtr (blk p) (off p + n).

Definition blk_eqb (a b : option nat) : bool :=
  match a, b with
  | None, None => true
  | Some x, Some y => Nat.eqb x y
  | _, _ => false
  end.

(** Relational comparison of pointers.  Comparing pointers into different
    arrays has an unspecified result in C++; the model answers [false]. *)
Definition ptr_lt (p q : Ptr) : bool := blk_eqb (blk p) (blk q) && (off p <? off q).
Definition ptr_le (p q : Ptr) : bool := blk_eqb (blk p) (blk q) && (off p <=? off q).

(** ** The element type *)

(** What the container is instantiated with: the element type (the template
    parameter [Type] of the source), its value-initialised value [Type()],
    the state a moved-from element is left in (the identity for trivially
    copyable types), and whether the translation unit is compiled with
    [NDEBUG], which turns every [assert] into a no-op. *)
Class ElemType : Type := MkElemType {
  Ty : Type;
  Ty_default : Ty;
  moved_from : Ty -> Ty;
  NDEBUG : bool
}.

(** ** The heap *)

(** A slot holds a value or is indeterminate ([None]): raw storage that was
    allocated but never written. *)
Abbreviation cell := (option Ty).
Abbreviation block := (list (option Ty)).

(** The heap is the list of all blocks ever allocated, indexed by address;
    a freed block is [None].  Addresses are never reused, so a dangling
    pointer is always detected. *)
Abbreviation Heap := (list (option (list (option Ty)))).

(** Calls run in a state-and-failure monad over the heap. *)
Definition M {elt : ElemType} (A : Type) : Type := Heap -> outcome (A * Heap).

Definition ret {elt : ElemType} {A} (a : A) : M A := fun h => Ok (a, h).

Definition bind {elt : ElemType} {A B} (c : M A) (k : A -> M B) : M B :=
  fun h =>
    match c h with
    | Ok (a, h') => k a h'
    | Throw e => Throw e
    | AssertFail => AssertFail
    | UB => UB
    end.

Definition throw {elt : ElemType} {A} (e : exn) : M A := fun _ => Throw e.
Definition undefined {elt : ElemType} {A} : M A := fun _ => UB.

Notation "x <- c ;; k" := (bind c (fun x => k))
  (at level 100, c at next level, right associativity).
Notation "c ;;; k" := (bind c (fun _ => k))
  (at level 100, right associativity).

Section Model.

Context {elt : ElemType}.

(** [assert(cond)] of <cassert>. *)
Definition assert_ (cond : bool) : M unit :=
  fun h => if NDEBUG then Ok (tt, h) else if cond then Ok (tt, h) else AssertFail.

Definition find_block (h : Heap) (a : nat) : option block :=
  match h !! a with
  | Some (Some b) => Some b
  | _ => None
  end.

(** Reading [*p]. *)
Definition load (p : Ptr) : M cell :=
  fun h =>
    match blk p with
    | None => UB
    | Some a =>
        match find_block h a with
        | None => UB
        | Some b =>
            if off p <? 0 then UB
            else match b !! Z.to_nat (off p) with
                 | Some c => Ok (c, h)
                 | None => UB
                 end
        end
    end.

(** Writing [*p = c]. *)
Definition store (p : Ptr) (c : cell) : M unit :=
  fun h =>
    match blk p with
    | None => UB
    | Some a =>
        match find_block h a with
        | None => UB
        | Some b =>
            if off p <? 0 then UB
            else if off p <? Z.of_nat (length b)
                 then Ok (tt, <[a := Some (<[Z.to_nat (off p) := c]> b)]> h)
                 else UB
        end
    end.

(** [*d = std::move( *s )]: the destination receives the value and the
    source is left moved-from. *)
Definition move_assign (d s : Ptr) : M unit :=
  c <- load s ;;
  store d c ;;;
  store s (moved_from <$> c).

(** [*d = *s]. *)
Definition copy_assign (d s : Ptr) : M unit :=
  c <- load s ;;
  store d c.

(** The number of steps from [first] to [last]; the range must lie in one
    array, otherwise iterating it is undefined. *)
Definition range_len (first last : Ptr) : M nat :=
  if blk_eqb (blk first) (blk last) && (off first <=? off last)
  then ret (Z.to_nat (off last - off first))
  else undefined.

(** [std::distance(first, last)] on pointers. *)
Definition distance (first last : Ptr) : M Z :=
  if blk_eqb (blk first) (blk last) then ret (off last - off first) else undefined.

(** ** Algorithms of <algorithm> *)

Fixpoint fill_n (n : nat) (first : Ptr) (value : Ty) : M unit :=
  match n with
  | O => ret tt
  | S n' => store first (Some value) ;;; fill_n n' (ptr_add first 1) value
  end.

Definition std_fill (first last : Ptr) (value : Ty) : M unit :=
  n <- range_len first last ;; fill_n n first value.

Fixpoint generate_n (n : nat) (first : Ptr) (gen : unit -> Ty) : M unit :=
  match n with
  | O => ret tt
  | S n' => store first (Some (gen tt)) ;;; generate_n n' (ptr_add first 1) gen
  end.

Definition std_generate (first last : Ptr) (gen : unit -> Ty) : M unit :=
  n <- range_len first last ;; generate_n n first gen.

Fixpoint copy_n (n : nat) (first d_first : Ptr) : M unit :=
  match n with
  | O => ret tt
  | S n' => copy_assign d_first first ;;; copy_n n' (ptr_add first 1) (ptr_add d_first 1)
  end.

Definition std_copy (first last d_first : Ptr) : M unit :=
  n <- range_len first last ;; copy_n n first d_first.

(** [std::copy] out of a [std::initializer_list], which lives outside the
    modelled heap. *)
Fixpoint copy_list (init : list Ty) (d_first : Ptr) : M unit :=
  match init with
  | [] => ret tt
  | x :: init' => store d_first (Some x) ;;; copy_list init' (ptr_add d_first 1)
  end.

Fixpoint move_n (n : nat) (first d_first : Ptr) : M unit :=
  match n with
  | O => ret tt
  | S n' => move_assign d_first first ;;; move_n n' (ptr_add first 1) (ptr_add d_first 1)
  end.

Definition std_move (first last d_first : Ptr) : M unit :=
  n <- range_len first last ;; move_n n first d_first.

Fixpoint move_backward_n (n : nat) (last d_last : Ptr) : M unit :=
  match n with
  | O => ret tt
  | S n' =>
      move_assign (ptr_add d_last (-1)) (ptr_add last (-1)) ;;;
      move_backward_n n' (ptr_add last (-1)) (ptr_add d_last (-1))
  end.

Definition std_move_backward (first last d_last : Ptr) : M unit :=
  n <- range_len first last ;; move_backward_n n last d_last.

(** ** ArrayPtr *)

(** Modelled from the spec: [array_ptr.h] is not part of the sources.  The
    spec describes it as the exclusive owner of one raw block:
    [allocate(capacity)] yields [capacity] raw slots and capacity 0 yields
    the empty, unallocated buffer; [get] is a pointer to slot 0; [swap]
    exchanges the owned storage; destruction releases the block once. *)
Record ArrayPtr : Type := MkArrayPtr { raw_ptr : option nat }.

(** Modelled from the spec: the default-constructed [ArrayPtr] owns
    nothing. *)
Definition ArrayPtr_default : ArrayPtr := MkArrayPtr None.

(** Modelled from the spec: [ArrayPtr(n)], the [allocate(capacity)] of the
    spec.  The new block gets the next address and [n] raw slots; capacity 0
    allocates nothing.  Allocation is taken to succeed. *)
Definition ArrayPtr_new (n : Z) : M ArrayPtr :=
  fun h =>
    if n =? 0 then Ok (ArrayPtr_default, h)
    else Ok (MkArrayPtr (Some (length h)), h ++ [Some (replicate (Z.to_nat n) None)]).

(** Modelled from the spec: [Get()], the pointer to slot 0. *)
Definition Get (a : ArrayPtr) : Ptr := MkPtr (raw_ptr a) 0.

(** Modelled from the spec: [swap(other)] exchanges the owned storage; no
    element is touched. *)
Definition ArrayPtr_swap (a b : ArrayPtr) : ArrayPtr * ArrayPtr := (b, a).

(** Modelled from the spec: releasing the owned block, as the destructor of
    [ArrayPtr] and [delete array.Release()] do; releasing a block that is
    not live is a double free. *)
Definition ArrayPtr_delete (a : ArrayPtr) : M unit :=
  fun h =>
    match raw_ptr a with
    | None => Ok (tt, h)
    | Some k =>
        match find_block h k with
        | Some _ => Ok (tt, <[k := None]> h)
        | None => UB
        end
    end.

(** ** ReserveProxyObj *)

(** The field is [size] in the source; [SimpleVector] has a field of that
    name too, so it is [reserve_size] here. *)
Record ReserveProxyObj : Type := MkReserveProxyObj { reserve_size : Z }.

(** The free function [Reserve(capacity_to_reserve)]. *)
Definition Reserve_proxy (capacity_to_reserve : Z) : ReserveProxyObj :=
  MkReserveProxyObj capacity_to_reserve.

(** ** SimpleVector *)

Record SimpleVector : Type := MkSimpleVector {
  capacity : Z;
  size : Z;
  array : ArrayPtr
}.

Definition set_size (this : SimpleVector) (s : Z) : SimpleVector :=
  MkSimpleVector (capacity this) s (array this).

Definition set_capacity (this : SimpleVector) (c : Z) : SimpleVector :=
  MkSimpleVector c (size this) (array this).

Definition set_array (this : SimpleVector) (a : ArrayPtr) : SimpleVector :=
  MkSimpleVector (capacity this) (size this) a.

Definition begin (this : SimpleVector) : Ptr := Get (array this).
Definition end_ (this : SimpleVector) : Ptr := ptr_add (Get (array this)) (size this).
Definition cbegin (this : SimpleVector) : Ptr := Get (array this).
Definition cend (this : SimpleVector) : Ptr := ptr_add (Get (array this)) (size this).

(** [SimpleVector() noexcept = default], with the member initialisers
    [capacity = 0u], [size = 0u]. *)
Definition SimpleVector_default : SimpleVector :=
  MkSimpleVector 0 0 ArrayPtr_default.

(** [explicit SimpleVector(size_t size)] *)
Definition SimpleVector_sized (n : Z) : M SimpleVector :=
  a <- ArrayPtr_new n ;;
  let this := MkSimpleVector n n a in
  std_fill (begin this) (end_ this) Ty_default ;;;
  ret this.

(** [SimpleVector(size_t size, const Type& value)] *)
Definition SimpleVector_filled (n : Z) (value : Ty) : M SimpleVector :=
  a <- ArrayPtr_new n ;;
  let this := MkSimpleVector n n a in
  std_fill (begin this) (end_ this) value ;;;
  ret this.

(** [explicit SimpleVector(ReserveProxyObj capacity)] *)
Definition SimpleVector_reserved (obj : ReserveProxyObj) : M SimpleVector :=
  a <- ArrayPtr_new (reserve_size obj) ;;
  ret (MkSimpleVector (reserve_size obj) 0 a).

(** [SimpleVector(std::initializer_list<Type> init)] *)
Definition SimpleVector_init (init : list Ty) : M SimpleVector :=
  let n := Z.of_nat (length init) in
  a <- ArrayPtr_new n ;;
  let this := MkSimpleVector n n a in
  copy_list init (begin this) ;;;
  ret this.

(** [SimpleVector(const SimpleVector& other)] *)
Definition SimpleVector_copy (other : SimpleVector) : M SimpleVector :=
  a <- ArrayPtr_new (size other) ;;
  let this := MkSimpleVector (size other) (size other) a in
  std_copy (begin other) (end_ other) (begin this) ;;;
  ret this.

(** [void swap(SimpleVector& other) noexcept]; the result is the pair of
    [*this] and [other] after the call. *)
Definition swap (this other : SimpleVector) : SimpleVector * SimpleVector :=
  let '(a, oa) := ArrayPtr_swap (array this) (array other) in
  (MkSimpleVector (capacity other) (size other) a,
   MkSimpleVector (capacity this) (size this) oa).

(** [SimpleVector(SimpleVector&& other)]; the result is the pair of the new
    object and [other] after the call. *)
Definition SimpleVector_move (other : SimpleVector) : SimpleVector * SimpleVector :=
  swap SimpleVector_default other.

(** [~SimpleVector()] *)
Definition SimpleVector_destroy (this : SimpleVector) : M unit :=
  ArrayPtr_delete (array this).

Definition GetSize (this : SimpleVector) : Z := size this.
Definition GetCapacity (this : SimpleVector) : Z := capacity this.
Definition IsEmpty (this : SimpleVector) : bool := size this =? 0.

(** [operator[]]: the reference is modelled as the pointer to the element. *)
Definition index (this : SimpleVector) (i : Z) : M Ptr :=
  assert_ (i <? size this) ;;;
  ret (ptr_add (Get (array this)) i).

Definition At (this : SimpleVector) (i : Z) : M Ptr :=
  if i <? size this then ret (ptr_add (Get (array this)) i)
  else throw out_of_range.

Definition Clear (this : SimpleVector) : SimpleVector := set_size this 0.

Definition Resize (this : SimpleVector) (new_size : Z) : M SimpleVector :=
  if new_size <=? size this then ret (set_size this new_size)
  else if new_size <? capacity this then ret (set_size this new_size)
  else
    let new_capacity := Z.max new_size (wrap (capacity this * 2)) in
    new_items <- ArrayPtr_new new_capacity ;;
    std_move (begin this) (end_ this) (Get new_items) ;;;
    std_generate (ptr_add (Get new_items) (size this))
                 (ptr_add (Get new_items) new_size) (fun _ => Ty_default) ;;;
    let this := set_size (set_capacity this new_capacity) new_size in
    let '(a, new_items) := ArrayPtr_swap (array this) new_items in
    let this := set_array this a in
    ArrayPtr_delete new_items ;;;
    ret this.

(** [operator=(const SimpleVector& rhs)].  [rhs = None] stands for
    self-assignment, where [rhs] is [*this] and every read of a field of
    [rhs] sees the current state of [*this]. *)
Definition rhs_now (this : SimpleVector) (rhs : option SimpleVector) : SimpleVector :=
  match rhs with
  | Some r => r
  | None => this
  end.

Definition assign (this : SimpleVector) (rhs : option SimpleVector) : M SimpleVector :=
  tmp <- SimpleVector_sized (size (rhs_now this rhs)) ;;
  std_copy (begin (rhs_now this rhs)) (end_ (rhs_now this rhs)) (begin tmp) ;;;
  let '(this, tmp) := swap this tmp in
  let this := set_capacity this (capacity (rhs_now this rhs)) in
  let this := set_size this (size (rhs_now this rhs)) in
  SimpleVector_destroy tmp ;;;
  ret this.

(** [void Reserve(const ReserveProxyObj& obj)] *)
Definition Reserve (this : SimpleVector) (obj : ReserveProxyObj) : M SimpleVector :=
  if reserve_size obj <? capacity this then ret this
  else
    tmp <- SimpleVector_sized (reserve_size obj) ;;
    std_move (begin this) (end_ this) (begin tmp) ;;;
    let old_size := size this in
    let '(this, tmp) := swap this tmp in
    let this := set_size this old_size in
    SimpleVector_destroy tmp ;;;
    ret this.

(** [Iterator Insert(ConstIterator pos, const Type& value)] *)
Definition Insert_copy (this : SimpleVector) (pos : Ptr) (value : Ty)
  : M (Ptr * SimpleVector) :=
  assert_ (ptr_le (begin this) pos && ptr_lt pos (end_ this)) ;;;
  let iter := pos in
  this <- Resize this (wrap (size this + 1)) ;;
  std_move_backward iter (end_ this) (ptr_add (end_ this) 1) ;;;
  store iter (Some value) ;;;
  let this := set_size this (wrap (size this + 1)) in
  ret (iter, this).

(** [Iterator Insert(Iterator pos, Type&& value)] *)
Definition Insert_move (this : SimpleVector) (pos : Ptr) (value : Ty)
  : M (Ptr * SimpleVector) :=
  assert_ (ptr_le (begin this) pos && ptr_lt pos (end_ this)) ;;;
  dist <- distance (begin this) pos ;;
  this <- Resize this (wrap (size this + 1)) ;;
  std_move_backward (ptr_add (begin this) dist) (ptr_add (end_ this) (-1)) (end_ this) ;;;
  (* std::exchange reads the old element, then writes the new one *)
  _old <- load (ptr_add (begin this) dist) ;;
  store (ptr_add (begin this) dist) (Some value) ;;;
  ret (ptr_add (begin this) dist, this).

(** [void PushBack(const Type& item)] *)
Definition PushBack_copy (this : SimpleVector) (item : Ty) : M SimpleVector :=
  r <- Insert_copy this (end_ this) item ;; ret (snd r).

(** [void PushBack(Type&& item)] *)
Definition PushBack_move (this : SimpleVector) (item : Ty) : M SimpleVector :=
  r <- Insert_move this (end_ this) item ;; ret (snd r).

(** [void PopBack() noexcept] *)
Definition PopBack (this : SimpleVector) : SimpleVector :=
  if size this =? 0 then this
  else set_size this (wrap (size this - 1)).

(** [Iterator Erase(ConstIterator pos)] *)
Definition Erase (this : SimpleVector) (pos : Ptr) : M (Ptr * SimpleVector) :=
  assert_ (ptr_le (begin this) pos && ptr_lt pos (end_ this)) ;;;
  n <- distance (cbegin this) pos ;;
  std_move (ptr_add (ptr_add (begin this) n) 1) (end_ this) (ptr_add (begin this) n) ;;;
  let this := set_size this (wrap (size this - 1)) in
  ret (ptr_add (begin this) n, this).

(** ** Abstraction: what a vector denotes in a heap *)

(** The number of slots of the block that [a] owns. *)
Definition slots (h : Heap) (a : ArrayPtr) : option Z :=
  match raw_ptr a with
  | None => Some 0
  | Some k =>
      match find_block h k with
      | Some b => Some (Z.of_nat (length b))
      | None => None
      end
  end.

(** All slots of the owned block. *)
Definition buffer (h : Heap) (a : ArrayPtr) : list cell :=
  match raw_ptr a with
  | None => []
  | Some k => default [] (find_block h k)
  end.

(** The live elements, indices [0, size). *)
Definition contents (h : Heap) (this : SimpleVector) : list cell :=
  take (Z.to_nat (size this)) (buffer h (array this)).

(** The data-model invariant: [0 <= size <= capacity], the capacity field
    is the number of allocated slots, and it is a [size_t] value. *)
Definition invariant (h : Heap) (this : SimpleVector) : Prop :=
  0 <= size this <= capacity this /\
  slots h (array this) = Some (capacity this) /\
  capacity this < SIZE_MODULUS.

End Model.

(** ** Instances used in the examples *)

(** [SimpleVector<int>] in a build with assertions, and in a build with
    [NDEBUG]; moving an [int] leaves the source unchanged. *)
Definition int_debug : ElemType := MkElemType Z 0 (fun x => x) false.
Definition int_release : ElemType := MkElemType Z 0 (fun x => x) true.

(** A heap with the single block [{1, 2, 3}] at address 0. *)
Definition heap_123 : list (option (list (option Z))) :=
  [Some [Some 1; Some 2; Some 3]].

(** The vector [{1, 2, 3}] over that block, and the same vector after one
    and after two calls of [PopBack]. *)
Definition vec_123 : SimpleVector := MkSimpleVector 3 3 (MkArrayPtr (Some 0%nat)).
Definition vec_12 : SimpleVector := MkSimpleVector 3 2 (MkArrayPtr (Some 0%nat)).
Definition vec_1 : SimpleVector := MkSimpleVector 3 1 (MkArrayPtr (Some 0%nat)).

(** A heap with one raw block of two slots, and the vector
    [SimpleVector(Reserve(2))] over it: capacity 2, size 0. *)
Definition heap_raw2 : list (option (list (option Z))) := [Some [None; None]].
Definition vec_reserved2 : SimpleVector := MkSimpleVector 2 0 (MkArrayPtr (Some 0%nat)).

(** The scenario of the spec in a build with [NDEBUG], through the move
    variants: from empty, [PushBack(5)], [PushBack(6)],
    [Insert(begin() + 1, 7)] give [5, 7, 6] with size 3; then
    [Erase(begin())] gives [7, 6] with size 2, and [Clear()] leaves size 0
    and the capacity as it was. *)
Definition scenario_insert : M (elt := int_release) SimpleVector :=
  this <- PushBack_move (elt := int_release) SimpleVector_default 5 ;;
  this <- PushBack_move (elt := int_release) this 6 ;;
  r <- Insert_move (elt := int_release) this (ptr_add (begin this) 1) 7 ;;
  ret (snd r).

Definition scenario_erase : M (elt := int_release) SimpleVector :=
  this <- scenario_insert ;;
  r <- Erase (elt := int_release) this (begin this) ;;
  ret (snd r).

(** ** Comparison operators *)

(** [operator==] and [operator<] of the element type, which the
    comparison operators of the container call. *)
Class ElemCompare {elt : ElemType} : Type := MkElemCompare {
  Ty_eqb : Ty -> Ty -> bool;
  Ty_ltb : Ty -> Ty -> bool
}.

Section Compare.

Context {elt : ElemType} {cmp : ElemCompare}.

(** Reading the value of [*p] for a comparison; an indeterminate slot has
    no value to read. *)
Definition read (p : Ptr) : M Ty :=
  c <- load p ;;
  match c with
  | Some v => ret v
  | None => undefined
  end.

Fixpoint equal_n (n : nat) (first1 first2 : Ptr) : M bool :=
  match n with
  | O => ret true
  | S n' =>
      a <- read first1 ;;
      b <- read first2 ;;
      if Ty_eqb a b then equal_n n' (ptr_add first1 1) (ptr_add first2 1)
      else ret false
  end.

(** [std::equal(first1, last1, first2, last2)] on random-access iterators:
    ranges of different length are unequal without any comparison. *)
Definition std_equal (first1 last1 first2 last2 : Ptr) : M bool :=
  n1 <- range_len first1 last1 ;;
  n2 <- range_len first2 last2 ;;
  if Nat.eqb n1 n2 then equal_n n1 first1 first2 else ret false.

(** The loop of [std::lexicographical_compare]: [n1] and [n2] are the
    numbers of elements left in the two ranges. *)
Fixpoint lexicographical_compare_n (n1 n2 : nat) (first1 first2 : Ptr) : M bool :=
  match n1, n2 with
  | O, O => ret false
  | O, S _ => ret true
  | S _, O => ret false
  | S n1', S n2' =>
      a <- read first1 ;;
      b <- read first2 ;;
      if Ty_ltb a b then ret true
      else if Ty_ltb b a then ret false
      else lexicographical_compare_n n1' n2' (ptr_add first1 1) (ptr_add first2 1)
  end.

Definition std_lexicographical_compare (first1 last1 first2 last2 : Ptr) : M bool :=
  n1 <- range_len first1 last1 ;;
  n2 <- range_len first2 last2 ;;
  lexicographical_compare_n n1 n2 first1 first2.

(** [operator==] *)
Definition operator_eq (lhs rhs : SimpleVector) : M bool :=
  std_equal (begin lhs) (end_ lhs) (begin rhs) (end_ rhs).

(** [operator!=] *)
Definition operator_ne (lhs rhs : SimpleVector) : M bool :=
  e <- operator_eq lhs rhs ;; ret (negb e).

(** [operator<] *)
Definition operator_lt (lhs rhs : SimpleVector) : M bool :=
  std_lexicographical_compare (begin lhs) (end_ lhs) (begin rhs) (end_ rhs).

(** [operator<=]: [(lhs == rhs) || (lhs < rhs)], the second operand only
    evaluated when the first is false. *)
Definition operator_le (lhs rhs : SimpleVector) : M bool :=
  e <- operator_eq lhs rhs ;;
  if e then ret true else operator_lt lhs rhs.

(** [operator>]: [return !(lhs <= rhs);] (the [return true;] after it is
    never reached). *)
Definition operator_gt (lhs rhs : SimpleVector) : M bool :=
  l <- operator_le lhs rhs ;; ret (negb l).

(** [operator>=] *)
Definition operator_ge (lhs rhs : SimpleVector) : M bool :=
  l <- operator_lt lhs rhs ;; ret (negb l).

(** What the two algorithms compute, on the sequences of element values:
    element-wise equality of sequences of the same length, and dictionary
    order. *)
Fixpoint seq_equal (l1 l2 : list Ty) : bool :=
  match l1, l2 with
  | [], [] => true
  | x :: l1', y :: l2' => Ty_eqb x y && seq_equal l1' l2'
  | _, _ => false
  end.

Fixpoint seq_less (l1 l2 : list Ty) : bool :=
  match l1, l2 with
  | [], [] => false
  | [], _ :: _ => true
  | _ :: _, [] => false
  | x :: l1', y :: l2' =>
      if Ty_ltb x y then true
      else if Ty_ltb y x then false
      else seq_less l1' l2'
  end.

(** The laws of a type whose [operator==] is equality and whose
    [operator<] is a strict total order, as for the arithmetic types. *)
Definition eq_decides : Prop := forall x y, Ty_eqb x y = true <-> x = y.

Definition lt_irreflexive : Prop := forall x, Ty_ltb x x = false.

Definition lt_strict_total : Prop :=
  lt_irreflexive /\
  (forall x y, Ty_ltb x y = true -> Ty_ltb y x = false) /\
  (forall x y, x <> y -> Ty_ltb x y = true \/ Ty_ltb y x = true).

End Compare.

(** ** Repeated append *)

Section Drivers.

Context {elt : ElemType}.

(** [for (auto& x : items) this.PushBack(std::move(x));] *)
Fixpoint PushBack_all (this : SimpleVector) (items : list Ty) : M SimpleVector :=
  match items with
  | [] => ret this
  | x :: items' => this' <- PushBack_move this x ;; PushBack_all this' items'
  end.

End Drivers.

(** [int] with its built-in comparison. *)
Definition int_compare_debug : ElemCompare (elt := int_debug) :=
  @MkElemCompare int_debug Z.eqb Z.ltb.

(** A heap with the blocks [{1, 2, 3}], [{1, 2}] and [{1, 3}], and the
    vectors over the second and the third. *)
Definition heap_cmp : list (option (list (option Z))) :=
  [Some [Some 1; Some 2; Some 3]; Some [Some 1; Some 2]; Some [Some 1; Some 3]].
Definition vec_b12 : SimpleVector := MkSimpleVector 2 2 (MkArrayPtr (Some 1%nat)).
Definition vec_b13 : SimpleVector := MkSimpleVector 2 2 (MkArrayPtr (Some 2%nat)).

(** The state that [v = w] leaves for [w = {1}] with capacity 3 (the vector
    [vec_1]): capacity field 3 over a block of one slot at address 1. *)
Definition heap_assigned : list (option (list (option Z))) :=
  [Some [Some 1; Some 2; Some 3]; Some [Some 1]].
Definition vec_assigned : SimpleVector := MkSimpleVector 3 1 (MkArrayPtr (Some 1%nat)).

Section Proofs.

Context {elt : ElemType}.

(** ** Heap lemmas *)

Ltac ptr_simpl :=
  unfold begin, end_, cbegin, cend; unfold Get, ptr_add; cbn [blk off].

Lemma bind_Ok {A B} (c : M A) (k : A -> M B) h a h' :
  c h = Ok (a, h') -> bind c k h = k a h'.
Proof. intros H. unfold bind. now rewrite H. Qed.

Lemma bind_inv {A B} (c : M A) (k : A -> M B) h r :
  bind c k h = Ok r -> exists a h1, c h = Ok (a, h1) /\ k a h1 = Ok r.
Proof.
  unfold bind. destruct (c h) as [[a h1]| | |]; try discriminate. eauto.
Qed.

Lemma bind_UB {A B} (c : M A) (k : A -> M B) h :
  c h = UB -> bind c k h = UB.
Proof. intros H. unfold bind. now rewrite H. Qed.

Lemma find_block_lookup (h : Heap) a b :
  find_block h a = Some b <-> h !! a = Some (Some b).
Proof.
  unfold find_block. destruct (h !! a) as [[x|]|]; split; congruence.
Qed.

Lemma find_block_lt (h : Heap) a b : find_block h a = Some b -> (a < length h)%nat.
Proof. intros H%find_block_lookup. eapply lookup_lt_Some; eauto. Qed.

Lemma find_block_insert_eq (h : Heap) a (x : block) :
  (a < length h)%nat -> find_block (<[a := Some x]> h) a = Some x.
Proof. intros H. apply find_block_lookup. now apply list_lookup_insert_eq. Qed.

Lemma find_block_insert_ne (h : Heap) a a' (x : option block) :
  a <> a' -> find_block (<[a := x]> h) a' = find_block h a'.
Proof. intros H. unfold find_block. now rewrite list_lookup_insert_ne. Qed.

Lemma find_block_insert_id (h : Heap) a b :
  find_block h a = Some b -> <[a := Some b]> h = h.
Proof. intros H%find_block_lookup. now apply list_insert_id. Qed.

Lemma find_block_app_l (h x : Heap) a :
  (a < length h)%nat -> find_block (h ++ x) a = find_block h a.
Proof. intros H. unfold find_block. now rewrite lookup_app_l. Qed.

Lemma find_block_app_new (h : Heap) (b : block) :
  find_block (h ++ [Some b]) (length h) = Some b.
Proof. apply find_block_lookup. now rewrite list_lookup_middle. Qed.

Lemma load_ok (h : Heap) a (b : block) z c :
  find_block h a = Some b -> 0 <= z -> b !! Z.to_nat z = Some c ->
  load (MkPtr (Some a) z) h = Ok (c, h).
Proof.
  intros Hb Hz Hc. unfold load. simpl. rewrite Hb.
  destruct (z <? 0) eqn:E; [lia|]. now rewrite Hc.
Qed.

Lemma store_ok (h : Heap) a (b : block) z c :
  find_block h a = Some b -> 0 <= z < Z.of_nat (length b) ->
  store (MkPtr (Some a) z) c h = Ok (tt, <[a := Some (<[Z.to_nat z := c]> b)]> h).
Proof.
  intros Hb Hz. unfold store. simpl. rewrite Hb.
  destruct (z <? 0) eqn:E; [lia|].
  destruct (z <? Z.of_nat (length b)) eqn:E'; [easy|lia].
Qed.

(** A move between two slots of one block. *)
Lemma move_assign_within (h : Heap) a (b : block) zd zs c :
  find_block h a = Some b ->
  0 <= zs -> b !! Z.to_nat zs = Some c ->
  0 <= zd < Z.of_nat (length b) ->
  move_assign (MkPtr (Some a) zd) (MkPtr (Some a) zs) h =
  Ok (tt, <[a := Some (<[Z.to_nat zs := moved_from <$> c]> (<[Z.to_nat zd := c]> b))]> h).
Proof.
  intros Hb Hzs Hc Hzd. unfold move_assign.
  rewrite (bind_Ok _ _ _ _ _ (load_ok _ _ _ _ _ Hb Hzs Hc)).
  rewrite (bind_Ok _ _ _ _ _ (store_ok _ _ _ _ c Hb Hzd)).
  pose proof (find_block_lt _ _ _ Hb) as Hlt.
  pose proof (lookup_lt_Some _ _ _ Hc) as Hs.
  erewrite store_ok.
  - now rewrite list_insert_insert_eq.
  - now apply find_block_insert_eq.
  - rewrite length_insert. lia.
Qed.

(** A move from a slot of block [a] into a slot of another block [d]. *)
Lemma move_assign_across (h : Heap) a d (b bd : block) zd zs c :
  a <> d ->
  find_block h a = Some b -> find_block h d = Some bd ->
  0 <= zs -> b !! Z.to_nat zs = Some c ->
  0 <= zd < Z.of_nat (length bd) ->
  move_assign (MkPtr (Some d) zd) (MkPtr (Some a) zs) h =
  Ok (tt, <[a := Some (<[Z.to_nat zs := moved_from <$> c]> b)]>
            (<[d := Some (<[Z.to_nat zd := c]> bd)]> h)).
Proof.
  intros Hne Hb Hbd Hzs Hc Hzd. unfold move_assign.
  rewrite (bind_Ok _ _ _ _ _ (load_ok _ _ _ _ _ Hb Hzs Hc)).
  rewrite (bind_Ok _ _ _ _ _ (store_ok _ _ _ _ c Hbd Hzd)).
  pose proof (lookup_lt_Some _ _ _ Hc) as Hs.
  erewrite store_ok; [reflexivity| |lia].
  rewrite find_block_insert_ne by congruence. exact Hb.
Qed.

Lemma copy_assign_across (h : Heap) a d (b bd : block) zd zs c :
  find_block h a = Some b -> find_block h d = Some bd ->
  0 <= zs -> b !! Z.to_nat zs = Some c ->
  0 <= zd < Z.of_nat (length bd) ->
  copy_assign (MkPtr (Some d) zd) (MkPtr (Some a) zs) h =
  Ok (tt, <[d := Some (<[Z.to_nat zd := c]> bd)]> h).
Proof.
  intros Hb Hbd Hzs Hc Hzd. unfold copy_assign.
  rewrite (bind_Ok _ _ _ _ _ (load_ok _ _ _ _ _ Hb Hzs Hc)).
  now apply store_ok.
Qed.

(** ** The algorithms on one block *)

(** [std::move] of [n] slots one position to the left, as [Erase] uses it. *)
Lemma move_n_shift_left n : forall (h : Heap) a (b : block) i,
  find_block h a = Some b -> (i + 1 + n <= length b)%nat ->
  exists b',
    move_n n (MkPtr (Some a) (Z.of_nat i + 1)) (MkPtr (Some a) (Z.of_nat i)) h
      = Ok (tt, <[a := Some b']> h) /\
    length b' = length b /\
    (forall j, (j < i)%nat -> b' !! j = b !! j) /\
    (forall j, (i <= j < i + n)%nat -> b' !! j = b !! S j) /\
    (forall j, (i + n < j)%nat -> b' !! j = b !! j).
Proof.
  induction n as [|n IH]; intros h a b i Hb Hlen.
  - exists b. simpl. unfold ret. rewrite (find_block_insert_id _ _ _ Hb).
    repeat split; auto. intros j Hj. lia.
  - destruct (lookup_lt_is_Some_2 b (S i)) as [c Hc]; [lia|].
    simpl move_n. unfold ptr_add. simpl blk. simpl off.
    erewrite bind_Ok; cycle 1.
    { apply move_assign_within with (c := c); try exact Hb; try lia.
      now replace (Z.to_nat (Z.of_nat i + 1)) with (S i) by lia. }
    set (b2 := <[Z.to_nat (Z.of_nat i + 1) := moved_from <$> c]>
                 (<[Z.to_nat (Z.of_nat i) := c]> b)).
    assert (Hb2 : find_block (<[a := Some b2]> h) a = Some b2).
    { apply find_block_insert_eq. eapply find_block_lt; eauto. }
    assert (Hl2 : length b2 = length b).
    { unfold b2. now rewrite !length_insert. }
    destruct (IH _ a b2 (S i) Hb2) as (b' & Hrun & Hl & Hlo & Hmid & Hhi); [lia|].
    exists b'.
    replace (Z.of_nat i + 1 + 1) with (Z.of_nat (S i) + 1) by lia.
    replace (Z.of_nat i + 1) with (Z.of_nat (S i)) by lia.
    rewrite Hrun, list_insert_insert_eq.
    split; [reflexivity|]. split; [congruence|].
    assert (Hb2i : forall j, j <> i -> j <> S i -> b2 !! j = b !! j).
    { intros j H1 H2. unfold b2.
      rewrite !list_lookup_insert_ne by lia. reflexivity. }
    split; [|split].
    + intros j Hj. rewrite Hlo by lia. apply Hb2i; lia.
    + intros j Hj. destruct (decide (j = i)) as [->|Hne].
      * rewrite Hlo by lia. unfold b2.
        rewrite list_lookup_insert_ne by lia.
        rewrite Nat2Z.id, list_lookup_insert_eq by lia. now rewrite Hc.
      * rewrite Hmid by lia. apply Hb2i; lia.
    + intros j Hj. rewrite Hhi by lia. apply Hb2i; lia.
Qed.

(** [std::move_backward] of [n] slots one position to the right, as
    [Insert] uses it. *)
Lemma move_backward_n_shift_right n : forall (h : Heap) a (b : block) i,
  find_block h a = Some b -> (i + n + 1 <= length b)%nat ->
  exists b',
    move_backward_n n (MkPtr (Some a) (Z.of_nat (i + n)))
                      (MkPtr (Some a) (Z.of_nat (i + n) + 1)) h
      = Ok (tt, <[a := Some b']> h) /\
    length b' = length b /\
    (forall j, (j < i)%nat -> b' !! j = b !! j) /\
    (forall j, (i <= j < i + n)%nat -> b' !! S j = b !! j) /\
    (forall j, (i + n + 1 <= j)%nat -> b' !! j = b !! j).
Proof.
  induction n as [|n IH]; intros h a b i Hb Hlen.
  - exists b. simpl. unfold ret. rewrite (find_block_insert_id _ _ _ Hb).
    repeat split; auto. intros j Hj. lia.
  - destruct (lookup_lt_is_Some_2 b (i + n)) as [c Hc]; [lia|].
    simpl move_backward_n. unfold ptr_add. cbn [blk off].
    erewrite bind_Ok; cycle 1.
    { apply move_assign_within with (c := c); try exact Hb; try lia.
      now replace (Z.to_nat (Z.of_nat (i + S n) + -1)) with (i + n)%nat by lia. }
    set (b2 := <[Z.to_nat (Z.of_nat (i + S n) + -1) := moved_from <$> c]>
                 (<[Z.to_nat (Z.of_nat (i + S n) + 1 + -1) := c]> b)).
    assert (Hb2 : find_block (<[a := Some b2]> h) a = Some b2).
    { apply find_block_insert_eq. eapply find_block_lt; eauto. }
    assert (Hl2 : length b2 = length b).
    { unfold b2. now rewrite !length_insert. }
    destruct (IH _ a b2 i Hb2) as (b' & Hrun & Hl & Hlo & Hmid & Hhi); [lia|].
    exists b'.
    replace (Z.of_nat (i + S n) + -1) with (Z.of_nat (i + n)) by lia.
    replace (Z.of_nat (i + S n) + 1 + -1) with (Z.of_nat (i + n) + 1) by lia.
    rewrite Hrun, list_insert_insert_eq.
    split; [reflexivity|]. split; [congruence|].
    assert (Hb2i : forall j, j <> (i + n)%nat -> j <> S (i + n) -> b2 !! j = b !! j).
    { intros j H1 H2. unfold b2.
      rewrite !list_lookup_insert_ne by lia. reflexivity. }
    split; [|split].
    + intros j Hj. rewrite Hlo by lia. apply Hb2i; lia.
    + intros j Hj. destruct (decide (j = i + n)%nat) as [->|Hne].
      * rewrite Hhi by lia. unfold b2.
        rewrite list_lookup_insert_ne by lia.
        replace (Z.to_nat (Z.of_nat (i + S n) + 1 + -1)) with (S (i + n)) by lia.
        rewrite list_lookup_insert_eq by lia. now rewrite Hc.
      * rewrite Hmid by lia. apply Hb2i; lia.
    + intros j Hj. rewrite Hhi by lia. apply Hb2i; lia.
Qed.

(** ** The algorithms between two blocks *)

Lemma heap_insert2 (h : Heap) a d (x x' y y' : option block) :
  a <> d ->
  <[a := x']> (<[d := y']> (<[a := x]> (<[d := y]> h))) = <[a := x']> (<[d := y']> h).
Proof.
  intros Hne.
  rewrite (list_insert_insert_ne _ d a) by congruence.
  now rewrite !list_insert_insert_eq.
Qed.

Lemma move_n_across n : forall (h : Heap) a d (b bd : block) i,
  a <> d -> find_block h a = Some b -> find_block h d = Some bd ->
  (i + n <= length b)%nat -> (i + n <= length bd)%nat ->
  exists b' bd',
    move_n n (MkPtr (Some a) (Z.of_nat i)) (MkPtr (Some d) (Z.of_nat i)) h
      = Ok (tt, <[a := Some b']> (<[d := Some bd']> h)) /\
    length b' = length b /\ length bd' = length bd /\
    (forall j, (i <= j < i + n)%nat -> bd' !! j = b !! j) /\
    (forall j, (j < i \/ i + n <= j)%nat -> bd' !! j = bd !! j).
Proof.
  induction n as [|n IH]; intros h a d b bd i Hne Hb Hbd Hlen Hlend.
  - exists b, bd. simpl. unfold ret.
    rewrite (find_block_insert_id _ _ _ Hbd), (find_block_insert_id _ _ _ Hb).
    repeat split; auto. intros j Hj. lia.
  - destruct (lookup_lt_is_Some_2 b i) as [c Hc]; [lia|].
    simpl move_n. unfold ptr_add. cbn [blk off].
    erewrite bind_Ok; cycle 1.
    { apply move_assign_across with (c := c); eauto; try lia.
      now rewrite Nat2Z.id. }
    rewrite Nat2Z.id.
    set (b1 := <[i := moved_from <$> c]> b).
    set (bd1 := <[i := c]> bd).
    pose proof (find_block_lt _ _ _ Hb) as Hka.
    pose proof (find_block_lt _ _ _ Hbd) as Hkd.
    destruct (IH (<[a := Some b1]> (<[d := Some bd1]> h)) a d b1 bd1 (S i) Hne)
      as (b' & bd' & Hrun & Hl & Hld & Hmid & Hout).
    { apply find_block_insert_eq. now rewrite length_insert. }
    { rewrite find_block_insert_ne by congruence. now apply find_block_insert_eq. }
    { unfold b1. rewrite length_insert. lia. }
    { unfold bd1. rewrite length_insert. lia. }
    exists b', bd'.
    replace (Z.of_nat i + 1) with (Z.of_nat (S i)) by lia.
    rewrite Hrun, heap_insert2 by assumption.
    unfold b1, bd1 in *. rewrite length_insert in Hl, Hld.
    repeat split; auto.
    + intros j Hj. destruct (decide (j = i)) as [->|Hji].
      * rewrite Hout by lia. rewrite list_lookup_insert_eq by lia. now rewrite Hc.
      * rewrite Hmid by lia. now rewrite list_lookup_insert_ne by lia.
    + intros j Hj. rewrite Hout by lia. now rewrite list_lookup_insert_ne by lia.
Qed.

Lemma copy_n_across n : forall (h : Heap) a d (b bd : block) i,
  a <> d -> find_block h a = Some b -> find_block h d = Some bd ->
  (i + n <= length b)%nat -> (i + n <= length bd)%nat ->
  exists bd',
    copy_n n (MkPtr (Some a) (Z.of_nat i)) (MkPtr (Some d) (Z.of_nat i)) h
      = Ok (tt, <[d := Some bd']> h) /\
    length bd' = length bd /\
    (forall j, (i <= j < i + n)%nat -> bd' !! j = b !! j) /\
    (forall j, (j < i \/ i + n <= j)%nat -> bd' !! j = bd !! j).
Proof.
  induction n as [|n IH]; intros h a d b bd i Hne Hb Hbd Hlen Hlend.
  - exists bd. simpl. unfold ret. rewrite (find_block_insert_id _ _ _ Hbd).
    repeat split; auto. intros j Hj. lia.
  - destruct (lookup_lt_is_Some_2 b i) as [c Hc]; [lia|].
    simpl copy_n. unfold ptr_add. cbn [blk off].
    erewrite bind_Ok; cycle 1.
    { apply copy_assign_across with (c := c) (b := b); eauto; try lia.
      now rewrite Nat2Z.id. }
    rewrite Nat2Z.id.
    set (bd1 := <[i := c]> bd).
    pose proof (find_block_lt _ _ _ Hbd) as Hkd.
    destruct (IH (<[d := Some bd1]> h) a d b bd1 (S i) Hne)
      as (bd' & Hrun & Hld & Hmid & Hout).
    { now rewrite find_block_insert_ne by congruence. }
    { now apply find_block_insert_eq. }
    { lia. }
    { unfold bd1. rewrite length_insert. lia. }
    exists bd'.
    replace (Z.of_nat i + 1) with (Z.of_nat (S i)) by lia.
    rewrite Hrun, list_insert_insert_eq.
    unfold bd1 in *. rewrite length_insert in Hld.
    repeat split; auto.
    + intros j Hj. destruct (decide (j = i)) as [->|Hji].
      * rewrite Hout by lia. rewrite list_lookup_insert_eq by lia. now rewrite Hc.
      * now rewrite Hmid by lia.
    + intros j Hj. rewrite Hout by lia. now rewrite list_lookup_insert_ne by lia.
Qed.

Lemma fill_n_spec n : forall (h : Heap) d (bd : block) i value,
  find_block h d = Some bd -> (i + n <= length bd)%nat ->
  exists bd',
    fill_n n (MkPtr (Some d) (Z.of_nat i)) value h = Ok (tt, <[d := Some bd']> h) /\
    length bd' = length bd /\
    (forall j, (i <= j < i + n)%nat -> bd' !! j = Some (Some value)) /\
    (forall j, (j < i \/ i + n <= j)%nat -> bd' !! j = bd !! j).
Proof.
  induction n as [|n IH]; intros h d bd i value Hbd Hlen.
  - exists bd. simpl. unfold ret. rewrite (find_block_insert_id _ _ _ Hbd).
    repeat split; auto. intros j Hj. lia.
  - simpl fill_n. unfold ptr_add. cbn [blk off].
    erewrite bind_Ok; [|apply store_ok with (b := bd); [exact Hbd|lia]].
    rewrite Nat2Z.id.
    set (bd1 := <[i := Some value]> bd).
    pose proof (find_block_lt _ _ _ Hbd) as Hkd.
    destruct (IH (<[d := Some bd1]> h) d bd1 (S i) value)
      as (bd' & Hrun & Hld & Hmid & Hout).
    { now apply find_block_insert_eq. }
    { unfold bd1. rewrite length_insert. lia. }
    exists bd'.
    replace (Z.of_nat i + 1) with (Z.of_nat (S i)) by lia.
    rewrite Hrun, list_insert_insert_eq.
    unfold bd1 in *. rewrite length_insert in Hld.
    repeat split; auto.
    + intros j Hj. destruct (decide (j = i)) as [->|Hji].
      * rewrite Hout by lia. now rewrite list_lookup_insert_eq by lia.
      * now rewrite Hmid by lia.
    + intros j Hj. rewrite Hout by lia. now rewrite list_lookup_insert_ne by lia.
Qed.

Lemma generate_n_fill n : forall first gen,
  generate_n n first gen = fill_n n first (gen tt).
Proof.
  induction n as [|n IH]; intros first gen; simpl; [reflexivity|].
  now rewrite IH.
Qed.

Lemma copy_list_spec init : forall (h : Heap) d (bd : block) i,
  find_block h d = Some bd -> (i + length init <= length bd)%nat ->
  exists bd',
    copy_list init (MkPtr (Some d) (Z.of_nat i)) h = Ok (tt, <[d := Some bd']> h) /\
    length bd' = length bd /\
    (forall j, (j < length init)%nat -> bd' !! (i + j)%nat = Some <$> init !! j) /\
    (forall j, (j < i \/ i + length init <= j)%nat -> bd' !! j = bd !! j).
Proof.
  induction init as [|x init IH]; intros h d bd i Hbd Hlen.
  - exists bd. simpl. unfold ret. rewrite (find_block_insert_id _ _ _ Hbd).
    repeat split; auto. simpl. intros j Hj. lia.
  - simpl copy_list. unfold ptr_add. cbn [blk off]. simpl in Hlen.
    erewrite bind_Ok; [|apply store_ok with (b := bd); [exact Hbd|lia]].
    rewrite Nat2Z.id.
    set (bd1 := <[i := Some x]> bd).
    pose proof (find_block_lt _ _ _ Hbd) as Hkd.
    destruct (IH (<[d := Some bd1]> h) d bd1 (S i))
      as (bd' & Hrun & Hld & Hmid & Hout).
    { now apply find_block_insert_eq. }
    { unfold bd1. rewrite length_insert. lia. }
    exists bd'.
    replace (Z.of_nat i + 1) with (Z.of_nat (S i)) by lia.
    rewrite Hrun, list_insert_insert_eq.
    unfold bd1 in *. rewrite length_insert in Hld.
    repeat split; auto.
    + intros [|j] Hj; simpl in Hj.
      * rewrite Nat.add_0_r, Hout by lia. now rewrite list_lookup_insert_eq by lia.
      * replace (i + S j)%nat with (S i + j)%nat by lia. rewrite Hmid by lia.
        reflexivity.
    + simpl. intros j Hj. rewrite Hout by lia. now rewrite list_lookup_insert_ne by lia.
Qed.

(** ** Facts about the abstraction *)

Lemma blk_eqb_refl a : blk_eqb a a = true.
Proof. destruct a; simpl; [apply Nat.eqb_refl|reflexivity]. Qed.

Lemma SIZE_MODULUS_gt_1 : 1 < SIZE_MODULUS.
Proof. reflexivity. Qed.

Lemma wrap_small z : 0 <= z < SIZE_MODULUS -> wrap z = z.
Proof. intros H. unfold wrap. now apply Z.mod_small. Qed.

Lemma assert_true (h : Heap) : assert_ true h = Ok (tt, h).
Proof. unfold assert_. now destruct NDEBUG. Qed.

Lemma assert_ok cond (h : Heap) : cond = true -> assert_ cond h = Ok (tt, h).
Proof. intros ->. apply assert_true. Qed.

Lemma range_len_ok first last (h : Heap) :
  blk first = blk last -> off first <= off last ->
  range_len first last h = Ok (Z.to_nat (off last - off first), h).
Proof.
  intros Hb Ho. unfold range_len. rewrite Hb, blk_eqb_refl.
  destruct (off first <=? off last) eqn:E; [reflexivity|lia].
Qed.

Lemma distance_ok first last (h : Heap) :
  blk first = blk last ->
  distance first last h = Ok (off last - off first, h).
Proof. intros Hb. unfold distance. now rewrite Hb, blk_eqb_refl. Qed.

(** A vector with a positive capacity owns a live block of that length. *)
Lemma invariant_block (h : Heap) this :
  invariant h this -> 0 < capacity this ->
  exists k b,
    array this = MkArrayPtr (Some k) /\
    find_block h k = Some b /\
    Z.of_nat (length b) = capacity this.
Proof.
  intros (_ & Hs & _) Hpos. unfold slots in Hs.
  destruct (array this) as [[k|]]; simpl in Hs.
  - destruct (find_block h k) as [b|] eqn:Hb; [|discriminate].
    exists k, b. repeat split; congruence.
  - injection Hs as Hs. lia.
Qed.

(** [std::move(first + 1, last, first)] inside one block. *)
Lemma std_move_shift_left (h : Heap) a (b : block) (i s : nat) :
  find_block h a = Some b -> (i < s <= length b)%nat ->
  exists b',
    std_move (MkPtr (Some a) (Z.of_nat i + 1)) (MkPtr (Some a) (Z.of_nat s))
             (MkPtr (Some a) (Z.of_nat i)) h
      = Ok (tt, <[a := Some b']> h) /\
    length b' = length b /\
    (forall j, (j < i)%nat -> b' !! j = b !! j) /\
    (forall j, (i <= j < s - 1)%nat -> b' !! j = b !! S j) /\
    (forall j, (s <= j)%nat -> b' !! j = b !! j).
Proof.
  intros Hb Hi.
  destruct (move_n_shift_left (s - i - 1) h a b i Hb)
    as (b' & Hrun & Hl & Hlo & Hmid & Hhi); [lia|].
  exists b'. split; [|repeat split; auto].
  - unfold std_move. erewrite bind_Ok; cycle 1.
    { apply range_len_ok; [reflexivity|]. cbn [off]. lia. }
    cbn [off].
    now replace (Z.to_nat (Z.of_nat s - (Z.of_nat i + 1))) with (s - i - 1)%nat by lia.
  - intros j Hj. apply Hmid. lia.
  - intros j Hj. apply Hhi. lia.
Qed.

Lemma shift_left_take {A} (b b' : list A) (i s : nat) :
  (i < s <= length b)%nat ->
  length b' = length b ->
  (forall j, (j < i)%nat -> b' !! j = b !! j) ->
  (forall j, (i <= j < s - 1)%nat -> b' !! j = b !! S j) ->
  take (s - 1) b' = take i (take s b) ++ drop (S i) (take s b).
Proof.
  intros Hi Hl Hlo Hmid. apply list_eq. intros j.
  assert (Hti : length (take i (take s b)) = i).
  { rewrite !length_take. lia. }
  destruct (decide (j < i)%nat) as [Hj|Hj].
  - rewrite lookup_take_lt, Hlo by lia.
    rewrite lookup_app_l by lia.
    now rewrite !lookup_take_lt by lia.
  - rewrite lookup_app_r by lia.
    rewrite Hti, lookup_drop.
    replace (S i + (j - i))%nat with (S j) by lia.
    destruct (decide (j < s - 1)%nat) as [Hj'|Hj'].
    + rewrite lookup_take_lt, Hmid by lia.
      now rewrite lookup_take_lt by lia.
    + now rewrite !lookup_take_ge by lia.
Qed.

(** ** Allocation and release *)

Lemma ArrayPtr_new_zero (h : Heap) : ArrayPtr_new 0 h = Ok (ArrayPtr_default, h).
Proof. reflexivity. Qed.

Lemma ArrayPtr_new_pos (h : Heap) n :
  0 < n ->
  ArrayPtr_new n h =
  Ok (MkArrayPtr (Some (length h)), h ++ [Some (replicate (Z.to_nat n) None)]).
Proof. intros Hn. unfold ArrayPtr_new. destruct (n =? 0) eqn:E; [lia|reflexivity]. Qed.

Lemma ArrayPtr_delete_ok (h : Heap) a c :
  slots h a = Some c ->
  exists h',
    ArrayPtr_delete a h = Ok (tt, h') /\
    length h' = length h /\
    (forall d, raw_ptr a <> Some d -> find_block h' d = find_block h d) /\
    (forall k, raw_ptr a = Some k -> find_block h' k = None).
Proof.
  intros Hs. unfold slots in Hs. unfold ArrayPtr_delete.
  destruct (raw_ptr a) as [k|].
  - destruct (find_block h k) as [b|] eqn:Hb; [|discriminate].
    exists (<[k := None]> h). split; [reflexivity|]. split; [apply length_insert|]. split.
    + intros d Hd. apply find_block_insert_ne. congruence.
    + intros k' [= <-]. unfold find_block.
      rewrite list_lookup_insert_eq; [reflexivity|]. eapply find_block_lt; eauto.
  - exists h. repeat split; auto. discriminate.
Qed.

(** ** The algorithms on whole ranges *)

Lemma std_fill_spec (h : Heap) d (bd : block) (s t : nat) value :
  find_block h d = Some bd -> (s <= t <= length bd)%nat ->
  exists bd',
    std_fill (MkPtr (Some d) (Z.of_nat s)) (MkPtr (Some d) (Z.of_nat t)) value h
      = Ok (tt, <[d := Some bd']> h) /\
    length bd' = length bd /\
    (forall j, (s <= j < t)%nat -> bd' !! j = Some (Some value)) /\
    (forall j, (j < s \/ t <= j)%nat -> bd' !! j = bd !! j).
Proof.
  intros Hbd Hst.
  destruct (fill_n_spec (t - s) h d bd s value Hbd) as (bd' & Hrun & Hl & Hin & Hout);
    [lia|].
  exists bd'. split; [|repeat split; auto].
  - unfold std_fill. erewrite bind_Ok; cycle 1.
    { apply range_len_ok; [reflexivity|]. cbn [off]. lia. }
    cbn [off]. now replace (Z.to_nat (Z.of_nat t - Z.of_nat s)) with (t - s)%nat by lia.
  - intros j Hj. apply Hin. lia.
  - intros j Hj. apply Hout. lia.
Qed.

Lemma std_generate_spec (h : Heap) d (bd : block) (s t : nat) gen :
  find_block h d = Some bd -> (s <= t <= length bd)%nat ->
  exists bd',
    std_generate (MkPtr (Some d) (Z.of_nat s)) (MkPtr (Some d) (Z.of_nat t)) gen h
      = Ok (tt, <[d := Some bd']> h) /\
    length bd' = length bd /\
    (forall j, (s <= j < t)%nat -> bd' !! j = Some (Some (gen tt))) /\
    (forall j, (j < s \/ t <= j)%nat -> bd' !! j = bd !! j).
Proof.
  intros Hbd Hst.
  destruct (std_fill_spec h d bd s t (gen tt) Hbd Hst) as (bd' & Hrun & Hrest).
  exists bd'. split; [|exact Hrest].
  rewrite <- Hrun. unfold std_generate, std_fill, bind.
  destruct (range_len _ _ h) as [[n h1]| | |]; try reflexivity.
  now rewrite generate_n_fill.
Qed.

(** [std::move_backward(first, last, last + 1)] inside one block. *)
Lemma std_move_backward_shift_right (h : Heap) a (b : block) (i s : nat) :
  find_block h a = Some b -> (i <= s)%nat -> (s + 1 <= length b)%nat ->
  exists b',
    std_move_backward (MkPtr (Some a) (Z.of_nat i)) (MkPtr (Some a) (Z.of_nat s))
                      (MkPtr (Some a) (Z.of_nat s + 1)) h
      = Ok (tt, <[a := Some b']> h) /\
    length b' = length b /\
    (forall j, (j < i)%nat -> b' !! j = b !! j) /\
    (forall j, (i <= j < s)%nat -> b' !! S j = b !! j) /\
    (forall j, (s + 1 <= j)%nat -> b' !! j = b !! j).
Proof.
  intros Hb Hi Hs.
  destruct (move_backward_n_shift_right (s - i) h a b i Hb)
    as (b' & Hrun & Hl & Hlo & Hmid & Hhi); [lia|].
  replace (i + (s - i))%nat with s in * by lia.
  exists b'. split; [|repeat split; auto].
  unfold std_move_backward. erewrite bind_Ok; cycle 1.
  { apply range_len_ok; [reflexivity|]. cbn [off]. lia. }
  cbn [off]. now replace (Z.to_nat (Z.of_nat s - Z.of_nat i)) with (s - i)%nat by lia.
Qed.

(** Moving the live range of a vector to the front of another block. *)
Lemma std_move_out (h : Heap) this d (bd : block) :
  0 <= size this <= capacity this ->
  slots h (array this) = Some (capacity this) ->
  raw_ptr (array this) <> Some d ->
  find_block h d = Some bd ->
  size this <= Z.of_nat (length bd) ->
  exists h1 bd',
    std_move (begin this) (end_ this) (MkPtr (Some d) 0) h = Ok (tt, h1) /\
    find_block h1 d = Some bd' /\
    length bd' = length bd /\
    take (Z.to_nat (size this)) bd' = contents h this /\
    (forall j, (Z.to_nat (size this) <= j)%nat -> bd' !! j = bd !! j) /\
    slots h1 (array this) = Some (capacity this) /\
    length h1 = length h.
Proof.
  intros Hsz Hs Hd Hbd Hfit. unfold slots in Hs. unfold contents, buffer.
  destruct (array this) as [[k|]] eqn:Ha; cbn [raw_ptr] in *.
  - destruct (find_block h k) as [b|] eqn:Hb; [|discriminate].
    injection Hs as Hs.
    assert (Hkd : k <> d) by congruence.
    destruct (move_n_across (Z.to_nat (size this)) h k d b bd 0 Hkd Hb Hbd)
      as (b' & bd' & Hrun & Hl & Hld & Hin & Hout); [lia|lia|].
    exists (<[k := Some b']> (<[d := Some bd']> h)), bd'.
    pose proof (find_block_lt _ _ _ Hb). pose proof (find_block_lt _ _ _ Hbd).
    assert (Hk : find_block (<[k:=Some b']> (<[d:=Some bd']> h)) k = Some b').
    { apply find_block_insert_eq. now rewrite length_insert. }
    split; [|split; [|split; [|split; [|split; [|split]]]]].
    + unfold std_move. erewrite bind_Ok; cycle 1.
      { apply range_len_ok; [reflexivity|]. ptr_simpl. lia. }
      ptr_simpl. rewrite Ha. cbn [raw_ptr].
      replace (Z.to_nat (0 + size this - 0)) with (Z.to_nat (size this)) by lia.
      exact Hrun.
    + rewrite find_block_insert_ne by congruence. now apply find_block_insert_eq.
    + exact Hld.
    + simpl. apply list_eq. intros j.
      destruct (decide (j < Z.to_nat (size this))%nat).
      * rewrite !lookup_take_lt by lia. apply Hin. lia.
      * now rewrite !lookup_take_ge by lia.
    + intros j Hj. apply Hout. lia.
    + unfold slots. cbn [raw_ptr]. rewrite Hk. f_equal. lia.
    + now rewrite !length_insert.
  - injection Hs as Hs. exists h, bd.
    split; [|split; [|split; [|split; [|split; [|split]]]]].
    + unfold std_move. erewrite bind_Ok; cycle 1.
      { apply range_len_ok; [reflexivity|]. ptr_simpl. lia. }
      ptr_simpl. rewrite Ha. cbn [raw_ptr].
      now replace (Z.to_nat (0 + size this - 0)) with 0%nat by lia.
    + exact Hbd.
    + reflexivity.
    + replace (Z.to_nat (size this)) with 0%nat by lia. reflexivity.
    + reflexivity.
    + unfold slots. cbn [raw_ptr]. f_equal. lia.
    + reflexivity.
Qed.

(** An empty live range is moved or copied without touching the heap. *)
Lemma std_move_nothing (h : Heap) this d_first :
  size this = 0 -> std_move (begin this) (end_ this) d_first h = Ok (tt, h).
Proof.
  intros Hs. unfold std_move. erewrite bind_Ok; cycle 1.
  { apply range_len_ok; [reflexivity|]. ptr_simpl. lia. }
  ptr_simpl. now replace (Z.to_nat (0 + size this - 0)) with 0%nat by lia.
Qed.

Lemma std_copy_nothing (h : Heap) this d_first :
  size this = 0 -> std_copy (begin this) (end_ this) d_first h = Ok (tt, h).
Proof.
  intros Hs. unfold std_copy. erewrite bind_Ok; cycle 1.
  { apply range_len_ok; [reflexivity|]. ptr_simpl. lia. }
  ptr_simpl. now replace (Z.to_nat (0 + size this - 0)) with 0%nat by lia.
Qed.

(** Copying the live range of a vector to the front of another block. *)
Lemma std_copy_out (h : Heap) this d (bd : block) :
  0 < size this <= capacity this ->
  slots h (array this) = Some (capacity this) ->
  raw_ptr (array this) <> Some d ->
  find_block h d = Some bd ->
  size this <= Z.of_nat (length bd) ->
  exists bd',
    std_copy (begin this) (end_ this) (MkPtr (Some d) 0) h
      = Ok (tt, <[d := Some bd']> h) /\
    length bd' = length bd /\
    take (Z.to_nat (size this)) bd' = contents h this /\
    (forall j, (Z.to_nat (size this) <= j)%nat -> bd' !! j = bd !! j).
Proof.
  intros Hsz Hs Hd Hbd Hfit. unfold slots in Hs. unfold contents, buffer.
  destruct (array this) as [[k|]] eqn:Ha; cbn [raw_ptr] in *.
  - destruct (find_block h k) as [b|] eqn:Hb; [|discriminate].
    injection Hs as Hs.
    assert (Hkd : k <> d) by congruence.
    destruct (copy_n_across (Z.to_nat (size this)) h k d b bd 0 Hkd Hb Hbd)
      as (bd' & Hrun & Hld & Hin & Hout); [lia|lia|].
    exists bd'.
    split; [|split; [|split]].
    + unfold std_copy. erewrite bind_Ok; cycle 1.
      { apply range_len_ok; [reflexivity|]. ptr_simpl. lia. }
      ptr_simpl. rewrite Ha. cbn [raw_ptr].
      replace (Z.to_nat (0 + size this - 0)) with (Z.to_nat (size this)) by lia.
      exact Hrun.
    + exact Hld.
    + simpl. apply list_eq. intros j.
      destruct (decide (j < Z.to_nat (size this))%nat).
      * rewrite !lookup_take_lt by lia. apply Hin. lia.
      * now rewrite !lookup_take_ge by lia.
    + intros j Hj. apply Hout. lia.
  - injection Hs as Hs. lia.
Qed.

(** ** Constructors *)

Lemma heap_fill_new (h : Heap) (raw bd' : block) :
  <[length h := Some bd']> (h ++ [Some raw]) = h ++ [Some bd'].
Proof.
  rewrite insert_app_r_alt by lia. now rewrite Nat.sub_diag.
Qed.

Lemma SimpleVector_filled_zero (h : Heap) value :
  SimpleVector_filled 0 value h = Ok (MkSimpleVector 0 0 ArrayPtr_default, h).
Proof. reflexivity. Qed.

Lemma SimpleVector_filled_pos (h : Heap) n value :
  0 < n ->
  SimpleVector_filled n value h =
  Ok (MkSimpleVector n n (MkArrayPtr (Some (length h))),
      h ++ [Some (replicate (Z.to_nat n) (Some value))]).
Proof.
  intros Hn. unfold SimpleVector_filled.
  rewrite (bind_Ok _ _ _ _ _ (ArrayPtr_new_pos h n Hn)).
  set (raw := replicate (Z.to_nat n) None).
  destruct (std_fill_spec (h ++ [Some raw]) (length h) raw 0 (Z.to_nat n) value)
    as (bd' & Hrun & Hl & Hin & _).
  { apply find_block_app_new. }
  { unfold raw. rewrite length_replicate. lia. }
  erewrite bind_Ok; cycle 1.
  { ptr_simpl. cbn [array raw_ptr size].
    replace (0 + n) with (Z.of_nat (Z.to_nat n)) by lia. exact Hrun. }
  unfold ret. rewrite heap_fill_new. repeat f_equal.
  apply list_eq_same_length with (Z.to_nat n).
  - apply length_replicate.
  - rewrite Hl. unfold raw. apply length_replicate.
  - intros j x y Hj Hx Hy. rewrite Hin in Hx by lia.
    apply lookup_replicate in Hy. destruct Hy as [-> _]. congruence.
Qed.

Lemma SimpleVector_sized_eq n : SimpleVector_sized n = SimpleVector_filled n Ty_default.
Proof. reflexivity. Qed.

(** ** Resize *)

Lemma slots_lt (h : Heap) a c k :
  slots h a = Some c -> raw_ptr a = Some k -> (k < length h)%nat.
Proof.
  unfold slots. intros Hs Hk. rewrite Hk in Hs.
  destruct (find_block h k) as [b|] eqn:Hb; [|discriminate].
  eapply find_block_lt; eauto.
Qed.

Lemma slots_app (h x : Heap) a c : slots h a = Some c -> slots (h ++ x) a = Some c.
Proof.
  intros Hs. pose proof (fun k => slots_lt h a c k Hs) as Hlt. unfold slots in *.
  destruct (raw_ptr a) as [k|]; [|exact Hs].
  rewrite find_block_app_l; [exact Hs|]. now apply Hlt.
Qed.

Lemma buffer_app (h x : Heap) a c : slots h a = Some c -> buffer (h ++ x) a = buffer h a.
Proof.
  intros Hs. pose proof (fun k => slots_lt h a c k Hs) as Hlt. unfold buffer.
  destruct (raw_ptr a) as [k|]; [|reflexivity].
  rewrite find_block_app_l; [reflexivity|]. now apply Hlt.
Qed.

Lemma slots_insert_ne (h : Heap) a d (x : option block) :
  raw_ptr a <> Some d -> slots (<[d := x]> h) a = slots h a.
Proof.
  intros Hne. unfold slots. destruct (raw_ptr a) as [k|]; [|reflexivity].
  rewrite find_block_insert_ne by congruence. reflexivity.
Qed.

Lemma contents_length (h : Heap) this :
  0 <= size this <= capacity this ->
  slots h (array this) = Some (capacity this) ->
  length (contents h this) = Z.to_nat (size this).
Proof.
  intros Hsz Hs. unfold contents, buffer, slots in *. rewrite length_take.
  destruct (raw_ptr (array this)) as [k|].
  - destruct (find_block h k) as [b|]; [|discriminate]. injection Hs as Hs.
    simpl. lia.
  - injection Hs as Hs. simpl. lia.
Qed.

(** The first two branches of [Resize]: only the size field changes. *)
Lemma Resize_in_place (h : Heap) this new_size :
  new_size <= size this \/ new_size < capacity this ->
  Resize this new_size h = Ok (set_size this new_size, h).
Proof.
  intros Hc. unfold Resize.
  destruct (new_size <=? size this) eqn:E1; [reflexivity|].
  destruct (new_size <? capacity this) eqn:E2; [reflexivity|lia].
Qed.

(** The third branch of [Resize]: a new block is allocated at the next free
    address, the live elements are moved to its front, the slots up to
    [new_size] are value-initialised, and the old block is released. *)
Lemma Resize_realloc (h : Heap) this new_size :
  invariant h this ->
  size this < new_size -> capacity this <= new_size ->
  exists h' bd,
    Resize this new_size h =
      Ok (MkSimpleVector (Z.max new_size (wrap (capacity this * 2))) new_size
                         (MkArrayPtr (Some (length h))), h') /\
    find_block h' (length h) = Some bd /\
    Z.of_nat (length bd) = Z.max new_size (wrap (capacity this * 2)) /\
    take (Z.to_nat new_size) bd =
      contents h this ++ replicate (Z.to_nat (new_size - size this)) (Some Ty_default) /\
    (forall j, (Z.to_nat new_size <= j < length bd)%nat -> bd !! j = Some None) /\
    length h' = S (length h) /\
    (forall k, raw_ptr (array this) = Some k -> find_block h' k = None).
Proof.
  intros (Hsz & Hslots & Hc) Hgrow Hcap.
  unfold Resize.
  destruct (new_size <=? size this) eqn:E1; [lia|].
  destruct (new_size <? capacity this) eqn:E2; [lia|].
  set (nc := Z.max new_size (wrap (capacity this * 2))).
  assert (Hnc : 0 < nc) by lia.
  rewrite (bind_Ok _ _ _ _ _ (ArrayPtr_new_pos h nc Hnc)).
  set (raw := replicate (Z.to_nat nc) None).
  set (h0 := h ++ [Some raw]).
  assert (Hraw : find_block h0 (length h) = Some raw) by apply find_block_app_new.
  assert (Hlraw : length raw = Z.to_nat nc) by apply length_replicate.
  assert (Hnd : raw_ptr (array this) <> Some (length h)).
  { intros Hk. pose proof (slots_lt _ _ _ _ Hslots Hk). lia. }
  destruct (std_move_out h0 this (length h) raw Hsz (slots_app _ _ _ _ Hslots) Hnd Hraw)
    as (h1 & bd1 & Hrun1 & Hf1 & Hl1 & Htake1 & Hrest1 & Hslots1 & Hlen1); [lia|].
  erewrite bind_Ok; [|exact Hrun1].
  destruct (std_generate_spec h1 (length h) bd1 (Z.to_nat (size this)) (Z.to_nat new_size)
              (fun _ => Ty_default) Hf1)
    as (bd2 & Hrun2 & Hl2 & Hin2 & Hout2); [lia|].
  erewrite bind_Ok; cycle 1.
  { ptr_simpl. cbn [raw_ptr].
    replace (0 + size this) with (Z.of_nat (Z.to_nat (size this))) by lia.
    replace (0 + new_size) with (Z.of_nat (Z.to_nat new_size)) by lia.
    exact Hrun2. }
  cbn [ArrayPtr_swap set_size set_capacity set_array array capacity size].
  assert (Hslots2 : slots (<[length h := Some bd2]> h1) (array this) = Some (capacity this)).
  { now rewrite slots_insert_ne. }
  destruct (ArrayPtr_delete_ok _ _ _ Hslots2) as (h3 & Hrun3 & Hlen3 & Hframe & Hfreed).
  erewrite bind_Ok; [|exact Hrun3]. unfold ret.
  assert (Hlh0 : length h0 = S (length h)).
  { unfold h0. rewrite length_app. simpl. lia. }
  exists h3, bd2.
  split; [reflexivity|]. split; [|split; [|split; [|split; [|split]]]].
  - rewrite Hframe by assumption. apply find_block_insert_eq. lia.
  - fold nc. lia.
  - unfold contents, h0 in Htake1. rewrite (buffer_app _ _ _ _ Hslots) in Htake1.
    fold (contents h this) in Htake1. rewrite <- Htake1.
    assert (Hlt : length (take (Z.to_nat (size this)) bd1) = Z.to_nat (size this)).
    { rewrite length_take. lia. }
    apply list_eq. intros j.
    destruct (decide (j < Z.to_nat (size this))%nat) as [Hj|Hj].
    + rewrite lookup_take_lt by lia. rewrite lookup_app_l by lia.
      rewrite lookup_take_lt by lia. apply Hout2. lia.
    + rewrite lookup_app_r by lia. rewrite Hlt.
      destruct (decide (j < Z.to_nat new_size)%nat) as [Hj2|Hj2].
      * rewrite lookup_take_lt by lia. rewrite Hin2 by lia.
        symmetry. apply lookup_replicate_2. lia.
      * rewrite lookup_take_ge by lia. symmetry.
        apply lookup_replicate_None. lia.
  - intros j Hj. rewrite Hout2 by lia. rewrite Hrest1 by lia.
    unfold raw. apply lookup_replicate_2. lia.
  - rewrite length_insert in Hlen3. lia.
  - exact Hfreed.
Qed.

Lemma wrap_bound z : 0 <= wrap z < SIZE_MODULUS.
Proof. unfold wrap. apply Z.mod_pos_bound. reflexivity. Qed.

(** C4. [Resize(new_size)] by cases, for a vector that satisfies the
    invariant and whose doubled capacity is representable: when
    [new_size <= size], or when [size < new_size < capacity], only the size
    field changes (heap, buffer and capacity are untouched, so nothing is
    deallocated); otherwise the capacity becomes
    [max(new_size, 2 * capacity)] (which is [new_size] from capacity 0), the
    buffer is a block at a fresh address, and the first [size] elements are
    the old ones in order.  In every case the call returns and the size is
    [new_size]. *)
Theorem Resize_spec (h : Heap) this new_size :
  invariant h this ->
  is_size_t new_size ->
  capacity this * 2 < SIZE_MODULUS ->
  exists h' this',
    Resize this new_size h = Ok (this', h') /\
    size this' = new_size /\
    invariant h' this' /\
    (new_size <= size this ->
       h' = h /\ capacity this' = capacity this /\ array this' = array this) /\
    (size this < new_size < capacity this ->
       h' = h /\ capacity this' = capacity this /\ array this' = array this) /\
    (size this < new_size -> capacity this <= new_size ->
       capacity this' = Z.max new_size (2 * capacity this) /\
       (capacity this = 0 -> capacity this' = new_size) /\
       raw_ptr (array this') = Some (length h) /\
       take (Z.to_nat (size this)) (contents h' this') = contents h this).
Proof.
  intros Hinv [Hn0 Hn1] Hdbl.
  destruct (decide (new_size <= size this \/ new_size < capacity this)) as [Hin|Hout].
  - exists h, (set_size this new_size).
    split; [now apply Resize_in_place|]. split; [reflexivity|].
    destruct Hinv as (Hsz & Hslots & Hc).
    split; [|repeat split; lia].
    unfold invariant, set_size. cbn [size capacity array]. repeat split; auto; lia.
  - destruct (Resize_realloc h this new_size Hinv) as
      (h' & bd & Hrun & Hfind & Hlen & Htake & _ & _ & _); [lia|lia|].
    destruct Hinv as (Hsz & Hslots & Hc).
    eexists h', _. split; [exact Hrun|]. cbn [size capacity array].
    pose proof (wrap_bound (capacity this * 2)).
    split; [reflexivity|]. split; [|split; [lia|split; [lia|]]].
    + unfold invariant, slots. cbn [size capacity array raw_ptr]. rewrite Hfind.
      repeat split; try lia. now f_equal.
    + intros _ _. rewrite wrap_small by lia.
      split; [f_equal; lia|]. split; [lia|]. split; [reflexivity|].
      unfold contents at 1, buffer. cbn [size array raw_ptr]. rewrite Hfind. simpl.
      rewrite Htake. apply take_app_length'.
      symmetry. now apply contents_length.
Qed.

(** C5 (what the code does). When [Resize] grows within the existing
    capacity, no slot is written: the heap is unchanged and every newly live
    index [i] in [old size, new_size) reads whatever the buffer already held
    there, not the value-initialised element. *)
Theorem Resize_in_place_keeps_slots (h : Heap) this new_size i :
  0 <= size this < new_size -> new_size < capacity this ->
  size this <= i < new_size ->
  exists this',
    Resize this new_size h = Ok (this', h) /\
    size this' = new_size /\
    contents h this' !! Z.to_nat i = buffer h (array this) !! Z.to_nat i.
Proof.
  intros Hgrow Hcap Hi. exists (set_size this new_size).
  split; [apply Resize_in_place; lia|]. split; [reflexivity|].
  unfold contents, set_size. cbn [size array]. apply lookup_take_lt. lia.
Qed.

(** ** Reserve *)

(** C6. For a vector that satisfies the invariant, [Reserve(c)] returns;
    with [c < capacity] it changes neither the vector nor the heap, with
    [c >= capacity] the capacity becomes exactly [c]; in both cases size and
    live sequence are preserved and the capacity does not decrease. *)
Theorem Reserve_spec (h : Heap) this c :
  invariant h this -> c < SIZE_MODULUS ->
  exists h' this',
    Reserve this (Reserve_proxy c) h = Ok (this', h') /\
    (c < capacity this -> this' = this /\ h' = h) /\
    (capacity this <= c -> capacity this' = c) /\
    size this' = size this /\
    contents h' this' = contents h this /\
    capacity this <= capacity this' /\
    invariant h' this'.
Proof.
  intros Hinv Hc. unfold Reserve, Reserve_proxy. cbn [reserve_size].
  destruct (c <? capacity this) eqn:E.
  - exists h, this. unfold ret. repeat split; auto; try lia; apply Hinv.
  - destruct Hinv as (Hsz & Hslots & Hcap).
    rewrite SimpleVector_sized_eq.
    destruct (decide (c = 0)) as [->|Hc0].
    + rewrite (bind_Ok _ _ _ _ _ (SimpleVector_filled_zero h Ty_default)).
      rewrite (bind_Ok _ _ _ _ _ (std_move_nothing h this _ ltac:(lia))).
      destruct (ArrayPtr_delete_ok _ _ _ Hslots) as (h' & Hrun & Hlen & Hframe & Hfreed).
      unfold swap, ArrayPtr_swap, set_size, SimpleVector_destroy.
      cbn [size capacity array].
      rewrite (bind_Ok _ _ _ _ _ Hrun). unfold ret.
      eexists _, _. split; [reflexivity|]. cbn [size capacity array].
      split; [lia|]. split; [reflexivity|]. split; [reflexivity|].
      split; [|split; [lia|]].
      * unfold contents. cbn [size array].
        replace (Z.to_nat (size this)) with 0%nat by lia. reflexivity.
      * unfold invariant, slots. cbn. repeat split; lia.
    + assert (Hcpos : 0 < c) by lia.
      rewrite (bind_Ok _ _ _ _ _ (SimpleVector_filled_pos h c Ty_default Hcpos)).
      set (full := replicate (Z.to_nat c) (Some Ty_default)).
      assert (Hnd : raw_ptr (array this) <> Some (length h)).
      { intros Hk. pose proof (slots_lt _ _ _ _ Hslots Hk). lia. }
      destruct (std_move_out (h ++ [Some full]) this (length h) full Hsz
                  (slots_app _ _ _ _ Hslots) Hnd (find_block_app_new _ _))
        as (h1 & bd' & Hrun1 & Hf1 & Hl1 & Htake1 & _ & Hslots1 & Hlen1).
      { unfold full. rewrite length_replicate. lia. }
      erewrite bind_Ok; [|exact Hrun1].
      destruct (ArrayPtr_delete_ok _ _ _ Hslots1) as (h2 & Hrun2 & Hlen2 & Hframe & Hfreed).
      unfold swap, ArrayPtr_swap, set_size, SimpleVector_destroy.
      cbn [size capacity array].
      rewrite (bind_Ok _ _ _ _ _ Hrun2). unfold ret.
      eexists _, _. split; [reflexivity|]. cbn [size capacity array].
      split; [lia|]. split; [reflexivity|]. split; [reflexivity|].
      assert (Hf2 : find_block h2 (length h) = Some bd') by now rewrite Hframe.
      split; [|split; [lia|]].
      * unfold contents at 1, buffer. cbn [size array raw_ptr]. rewrite Hf2. simpl.
        rewrite Htake1. unfold contents. f_equal. eapply buffer_app; eauto.
      * unfold invariant, slots. cbn [size capacity array raw_ptr]. rewrite Hf2.
        unfold full in Hl1. rewrite length_replicate in Hl1.
        repeat split; try lia. f_equal. lia.
Qed.

(** ** Erase *)

(** C8. For a vector that satisfies the invariant and a position
    [begin() + n] with [0 <= n < size], [Erase] returns normally; the size
    drops by exactly one, the capacity and the buffer stay, the live
    sequence is the old one without its [n]-th element (elements before
    [n] unchanged, elements after it one slot to the left, in order), and the
    returned iterator is [begin() + n] of the result, which is [end()] when
    the last element was erased. *)
Theorem Erase_spec (h : Heap) this n :
  invariant h this -> 0 <= n < size this ->
  exists h' this',
    Erase this (ptr_add (begin this) n) h = Ok ((ptr_add (begin this') n, this'), h') /\
    size this' = size this - 1 /\
    capacity this' = capacity this /\
    array this' = array this /\
    contents h' this' =
      take (Z.to_nat n) (contents h this) ++ drop (S (Z.to_nat n)) (contents h this) /\
    (n = size this - 1 -> ptr_add (begin this') n = end_ this') /\
    invariant h' this'.
Proof.
  intros Hinv Hn.
  destruct (invariant_block _ _ Hinv) as (k & b & Ha & Hb & Hlen);
    [destruct Hinv; lia|].
  destruct Hinv as (Hsz & Hslots & Hcap).
  destruct (std_move_shift_left h k b (Z.to_nat n) (Z.to_nat (size this)) Hb)
    as (b' & Hrun & Hl & Hlo & Hmid & _); [lia|].
  exists (<[k := Some b']> h), (set_size this (size this - 1)).
  assert (Hb' : find_block (<[k := Some b']> h) k = Some b').
  { apply find_block_insert_eq. eapply find_block_lt; eauto. }
  split; [|split; [|split; [|split; [|split; [|split]]]]]; try reflexivity.
  - unfold Erase.
    erewrite bind_Ok; cycle 1.
    { apply assert_ok. unfold ptr_le, ptr_lt. ptr_simpl.
      rewrite blk_eqb_refl. cbn [andb].
      apply andb_true_intro. split; [apply Z.leb_le|apply Z.ltb_lt]; lia. }
    erewrite bind_Ok; [|now apply distance_ok].
    ptr_simpl. rewrite Ha. cbn [raw_ptr].
    replace (0 + n - 0) with n by lia.
    erewrite bind_Ok; cycle 1.
    { replace (0 + n + 1) with (Z.of_nat (Z.to_nat n) + 1) by lia.
      replace (0 + n) with (Z.of_nat (Z.to_nat n)) by lia.
      replace (0 + size this) with (Z.of_nat (Z.to_nat (size this))) by lia.
      exact Hrun. }
    unfold ret. rewrite wrap_small by (unfold SIZE_MODULUS in *; lia).
    unfold set_size. cbn [array capacity size]. now rewrite Ha.
  - unfold contents, buffer, set_size. simpl. rewrite Ha. simpl.
    rewrite Hb, Hb'. simpl.
    replace (Z.to_nat (size this - 1)) with (Z.to_nat (size this) - 1)%nat by lia.
    apply shift_left_take; try lia; auto.
  - intros ->. unfold end_, ptr_add, begin. simpl. reflexivity.
  - unfold invariant, set_size, slots. simpl. rewrite Ha. simpl.
    rewrite Hb'. repeat split; try lia. f_equal. lia.
Qed.

(** ** Insert *)

Lemma shift_right_take {A} (b b' : list A) (i s : nat) (v : A) :
  (i <= s < length b)%nat ->
  length b' = length b ->
  (forall j, (j < i)%nat -> b' !! j = b !! j) ->
  (forall j, (i <= j < s)%nat -> b' !! S j = b !! j) ->
  take (S s) (<[i := v]> b') = take i (take s b) ++ v :: drop i (take s b).
Proof.
  intros Hi Hl Hlo Hmid. apply list_eq. intros j.
  assert (Hti : length (take i (take s b)) = i).
  { rewrite !length_take. lia. }
  destruct (decide (j < i)%nat) as [Hj|Hj].
  - rewrite lookup_take_lt by lia. rewrite list_lookup_insert_ne by lia.
    rewrite Hlo by lia. rewrite lookup_app_l by lia.
    now rewrite !lookup_take_lt by lia.
  - rewrite lookup_app_r by lia. rewrite Hti.
    destruct (decide (j = i)) as [->|Hne].
    + rewrite lookup_take_lt by lia. rewrite list_lookup_insert_eq by lia.
      now rewrite Nat.sub_diag.
    + destruct j as [|j]; [lia|].
      replace (S j - i)%nat with (S (j - i)) by lia.
      change ((v :: drop i (take s b)) !! S (j - i)%nat)
        with (drop i (take s b) !! (j - i)%nat).
      rewrite lookup_drop. replace (i + (j - i))%nat with j by lia.
      destruct (decide (j < s)%nat) as [Hjs|Hjs].
      * rewrite lookup_take_lt by lia. rewrite list_lookup_insert_ne by lia.
        rewrite Hmid by lia. now rewrite lookup_take_lt by lia.
      * now rewrite !lookup_take_ge by lia.
Qed.

Lemma assert_pos_ok (h : Heap) this n :
  0 <= n < size this ->
  assert_ (ptr_le (begin this) (ptr_add (begin this) n) &&
           ptr_lt (ptr_add (begin this) n) (end_ this)) h = Ok (tt, h).
Proof.
  intros Hn. apply assert_ok. unfold ptr_le, ptr_lt. ptr_simpl.
  rewrite blk_eqb_refl. cbn [andb].
  apply andb_true_intro. split; [apply Z.leb_le|apply Z.ltb_lt]; lia.
Qed.

Lemma assert_release cond (h : Heap) : NDEBUG = true -> assert_ cond h = Ok (tt, h).
Proof. intros Hnd. unfold assert_. now rewrite Hnd. Qed.

(** [Resize(size + 1)] as both variants of [Insert] call it: afterwards the
    vector owns a live block with room for [size + 1] elements whose first
    [size] slots are the old live elements. *)
Lemma Resize_grow_one (h : Heap) this :
  invariant h this -> capacity this * 2 < SIZE_MODULUS ->
  exists h1 this1 a b1,
    Resize this (wrap (size this + 1)) h = Ok (this1, h1) /\
    array this1 = MkArrayPtr (Some a) /\
    size this1 = size this + 1 /\
    find_block h1 a = Some b1 /\
    Z.of_nat (length b1) = capacity this1 /\
    size this + 1 <= capacity this1 < SIZE_MODULUS /\
    take (Z.to_nat (size this)) b1 = contents h this.
Proof.
  intros Hinv Hdbl.
  pose proof Hinv as (Hsz & Hslots & Hc).
  assert (Hw : wrap (size this + 1) = size this + 1).
  { apply wrap_small. pose proof SIZE_MODULUS_gt_1. lia. }
  rewrite Hw.
  destruct (decide (size this + 1 < capacity this)) as [Hin|Hout].
  - destruct (invariant_block _ _ Hinv) as (k & b & Ha & Hb & Hlen); [lia|].
    exists h, (set_size this (size this + 1)), k, b.
    split; [apply Resize_in_place; lia|].
    unfold set_size. cbn [size capacity array].
    repeat split; auto; try lia.
    unfold contents, buffer. rewrite Ha. cbn [raw_ptr]. now rewrite Hb.
  - destruct (Resize_realloc h this (size this + 1) Hinv) as
      (h' & bd & Hrun & Hfind & Hlen & Htake & _ & _ & _); [lia|lia|].
    eexists h', _, (length h), bd. split; [exact Hrun|].
    cbn [size capacity array]. pose proof (wrap_bound (capacity this * 2)).
    pose proof SIZE_MODULUS_gt_1.
    repeat split; auto; try lia.
    replace (Z.to_nat (size this)) with
      (Z.to_nat (size this) `min` Z.to_nat (size this + 1))%nat by lia.
    rewrite <- take_take, Htake. apply take_app_length'.
    symmetry. now apply contents_length.
Qed.

(** The move variant of [Insert] does what its documentation says: the size
    grows by exactly one, [value] sits at the insertion position with the
    other elements in their old order around it, and the returned iterator
    designates the inserted element.  The position [end()] is accepted only
    when assertions are compiled out. *)
Lemma Insert_move_spec (h : Heap) this n value :
  invariant h this -> 0 <= n <= size this -> n < size this \/ NDEBUG = true ->
  capacity this * 2 < SIZE_MODULUS ->
  exists h' this',
    Insert_move this (ptr_add (begin this) n) value h
      = Ok ((ptr_add (begin this') n, this'), h') /\
    size this' = size this + 1 /\
    contents h' this' =
      take (Z.to_nat n) (contents h this) ++
      Some value :: drop (Z.to_nat n) (contents h this) /\
    load (ptr_add (begin this') n) h' = Ok (Some value, h') /\
    invariant h' this'.
Proof.
  intros Hinv Hn Hpos Hdbl.
  destruct (Resize_grow_one h this Hinv) as
    (h1 & this1 & a & b1 & Hrun & Ha & Hs1 & Hb1 & Hl1 & Hc1 & Htake); [lia|].
  destruct (std_move_backward_shift_right h1 a b1 (Z.to_nat n) (Z.to_nat (size this)) Hb1)
    as (b' & Hmv & Hl & Hlo & Hmid & Hhi); [lia|lia|].
  set (b2 := <[Z.to_nat n := Some value]> b').
  pose proof (find_block_lt _ _ _ Hb1) as Halt.
  assert (Hb' : find_block (<[a := Some b']> h1) a = Some b')
    by now apply find_block_insert_eq.
  assert (Hb2 : find_block (<[a := Some b2]> h1) a = Some b2)
    by now apply find_block_insert_eq.
  destruct (lookup_lt_is_Some_2 b' (Z.to_nat n)) as [c Hc]; [lia|].
  exists (<[a := Some b2]> h1), this1.
  split; [|split; [exact Hs1|split; [|split]]].
  - unfold Insert_move.
    erewrite bind_Ok; cycle 1.
    { destruct Hpos as [Hlt|Hnd]; [apply assert_pos_ok; lia|now apply assert_release]. }
    erewrite bind_Ok; [|now apply distance_ok].
    rewrite (bind_Ok _ _ _ _ _ Hrun).
    ptr_simpl. rewrite Ha, Hs1. cbn [raw_ptr].
    replace (0 + n - 0) with n by lia.
    erewrite bind_Ok; cycle 1.
    { replace (0 + n) with (Z.of_nat (Z.to_nat n)) by lia.
      replace (0 + (size this + 1) + -1) with (Z.of_nat (Z.to_nat (size this))) by lia.
      replace (0 + (size this + 1)) with (Z.of_nat (Z.to_nat (size this)) + 1) by lia.
      exact Hmv. }
    erewrite bind_Ok; cycle 1.
    { eapply load_ok; [exact Hb'|lia|].
      replace (Z.to_nat (0 + n)) with (Z.to_nat n) by lia. exact Hc. }
    erewrite bind_Ok; cycle 1.
    { eapply store_ok; [exact Hb'|lia]. }
    unfold ret. rewrite list_insert_insert_eq.
    now replace (Z.to_nat (0 + n)) with (Z.to_nat n) by lia.
  - rewrite <- Htake.
    unfold contents, buffer. rewrite Ha, Hs1. cbn [raw_ptr]. rewrite Hb2. simpl.
    replace (Z.to_nat (size this + 1)) with (S (Z.to_nat (size this))) by lia.
    apply shift_right_take; auto; lia.
  - ptr_simpl. rewrite Ha. cbn [raw_ptr].
    eapply load_ok; [exact Hb2|lia|].
    unfold b2. replace (Z.to_nat (0 + n)) with (Z.to_nat n) by lia.
    apply list_lookup_insert_eq. lia.
  - unfold invariant, slots. rewrite Ha, Hs1. cbn [raw_ptr]. rewrite Hb2.
    unfold b2. rewrite length_insert.
    repeat split; try lia. f_equal. lia.
Qed.

(** C1 (what the code does). The copy variant of [Insert] never grows the
    size by exactly one.  When [size + 1 < capacity] it returns with the size
    grown by two: [Resize(size + 1)] has already counted the new element and
    [++size] counts it again, so the stale slot at index [size] becomes
    live behind the old elements.  When [Resize] reallocates, [iter] still
    points into the released block and the call is undefined. *)
Theorem Insert_copy_spec (h : Heap) this n value :
  invariant h this -> 0 <= n < size this -> capacity this * 2 < SIZE_MODULUS ->
  (size this + 1 < capacity this ->
     exists h' this',
       Insert_copy this (ptr_add (begin this) n) value h
         = Ok ((ptr_add (begin this') n, this'), h') /\
       size this' = size this + 2 /\
       contents h' this' =
         take (Z.to_nat n) (contents h this) ++
         Some value ::
         drop (Z.to_nat n) (take (Z.to_nat (size this + 1)) (buffer h (array this)))) /\
  (capacity this <= size this + 1 ->
     Insert_copy this (ptr_add (begin this) n) value h = UB).
Proof.
  intros Hinv Hn Hdbl.
  pose proof Hinv as (Hsz & Hslots & Hc).
  assert (Hw : wrap (size this + 1) = size this + 1).
  { apply wrap_small. lia. }
  split.
  - intros Hroom.
    destruct (invariant_block _ _ Hinv) as (k & b & Ha & Hb & Hlen); [lia|].
    destruct (std_move_backward_shift_right h k b (Z.to_nat n)
                (Z.to_nat (size this + 1)) Hb)
      as (b' & Hmv & Hl & Hlo & Hmid & Hhi); [lia|lia|].
    set (b2 := <[Z.to_nat n := Some value]> b').
    pose proof (find_block_lt _ _ _ Hb) as Halt.
    assert (Hb' : find_block (<[k := Some b']> h) k = Some b')
      by now apply find_block_insert_eq.
    assert (Hb2 : find_block (<[k := Some b2]> h) k = Some b2)
      by now apply find_block_insert_eq.
    exists (<[k := Some b2]> h), (set_size this (size this + 2)).
    split; [|split; [reflexivity|]].
    + unfold Insert_copy.
      rewrite (bind_Ok _ _ _ _ _ (assert_pos_ok h this n Hn)).
      rewrite Hw.
      erewrite bind_Ok; [|apply Resize_in_place; lia].
      unfold set_size. ptr_simpl. cbn [size capacity array]. rewrite Ha. cbn [raw_ptr].
      erewrite bind_Ok; cycle 1.
      { replace (0 + n) with (Z.of_nat (Z.to_nat n)) by lia.
        replace (0 + (size this + 1) + 1)
          with (Z.of_nat (Z.to_nat (size this + 1)) + 1) by lia.
        replace (0 + (size this + 1)) with (Z.of_nat (Z.to_nat (size this + 1))) by lia.
        exact Hmv. }
      erewrite bind_Ok; cycle 1.
      { eapply store_ok; [exact Hb'|lia]. }
      unfold ret. rewrite list_insert_insert_eq.
      rewrite wrap_small by lia.
      replace (Z.to_nat (0 + n)) with (Z.to_nat n) by lia.
      now replace (size this + 1 + 1) with (size this + 2) by lia.
    + unfold contents, buffer, set_size. cbn [size array]. rewrite Ha. cbn [raw_ptr].
      rewrite Hb2, Hb. simpl.
      replace (Z.to_nat (size this + 2)) with (S (Z.to_nat (size this + 1))) by lia.
      unfold b2. rewrite (shift_right_take b b') by (auto; lia).
      f_equal. rewrite !take_take. f_equal. lia.
  - intros Hfull.
    destruct (Resize_realloc h this (size this + 1) Hinv) as
      (h' & bd & Hrun & _); [lia|lia|].
    unfold Insert_copy.
    rewrite (bind_Ok _ _ _ _ _ (assert_pos_ok h this n Hn)).
    rewrite Hw, (bind_Ok _ _ _ _ _ Hrun).
    unfold bind, std_move_backward, range_len. ptr_simpl. cbn [array raw_ptr].
    destruct (raw_ptr (array this)) as [k|] eqn:Hk; cbn [blk_eqb andb]; [|reflexivity].
    pose proof (slots_lt _ _ _ _ Hslots Hk) as Hlt.
    destruct (Nat.eqb_spec k (length h)) as [->|Hne]; [lia|]. reflexivity.
Qed.

(** ** PushBack *)

(** With assertions compiled out, the move variant of [PushBack] appends. *)
Lemma PushBack_move_release (h : Heap) this item :
  NDEBUG = true -> invariant h this -> capacity this * 2 < SIZE_MODULUS ->
  exists h' this',
    PushBack_move this item h = Ok (this', h') /\
    size this' = size this + 1 /\
    contents h' this' = contents h this ++ [Some item] /\
    invariant h' this'.
Proof.
  intros Hnd Hinv Hdbl. pose proof Hinv as (Hsz & Hslots & _).
  destruct (Insert_move_spec h this (size this) item Hinv) as
    (h' & this' & Hrun & Hs & Hc & _ & Hinv'); auto; [lia|].
  exists h', this'. split; [|split; [exact Hs|split; [|exact Hinv']]].
  - unfold PushBack_move. now rewrite (bind_Ok _ _ _ _ _ Hrun).
  - rewrite Hc. pose proof (contents_length h this Hsz Hslots) as Hl.
    rewrite take_ge, drop_ge by lia. reflexivity.
Qed.

(** C3 (what the code does). [PushBack] is [Insert] at [end()]: whatever
    [Insert(end(), item)] returns is what [PushBack(item)] leaves behind.
    But [end()] does not satisfy [pos < end()], so in a build with
    assertions both variants of [PushBack] stop at the assertion of
    [Insert], for every vector, the empty one included. *)
Theorem PushBack_spec (h : Heap) this item :
  (forall p this' h',
     Insert_copy this (end_ this) item h = Ok ((p, this'), h') ->
     PushBack_copy this item h = Ok (this', h')) /\
  (forall p this' h',
     Insert_move this (end_ this) item h = Ok ((p, this'), h') ->
     PushBack_move this item h = Ok (this', h')) /\
  (NDEBUG = false ->
     PushBack_copy this item h = AssertFail /\
     PushBack_move this item h = AssertFail).
Proof.
  split; [|split].
  - intros p this' h' Hrun. unfold PushBack_copy. now rewrite (bind_Ok _ _ _ _ _ Hrun).
  - intros p this' h' Hrun. unfold PushBack_move. now rewrite (bind_Ok _ _ _ _ _ Hrun).
  - intros Hnd.
    assert (Hlt : ptr_lt (end_ this) (end_ this) = false).
    { unfold ptr_lt. rewrite blk_eqb_refl. cbn [andb]. apply Z.ltb_irrefl. }
    unfold PushBack_copy, PushBack_move, Insert_copy, Insert_move, bind, assert_.
    rewrite Hnd, Hlt, andb_false_r. split; reflexivity.
Qed.

(** ** Copy assignment *)

(** C2 (what the code does). Copy assignment from another vector returns
    with the size and the live sequence of [rhs], but it also copies the
    capacity field of [rhs] while the owned block has only [size rhs] slots.
    Whenever [rhs] has spare capacity the invariant is broken: the capacity
    field exceeds the number of allocated slots. *)
Theorem assign_spec (h : Heap) this rhs :
  invariant h this -> invariant h rhs ->
  exists h' this',
    assign this (Some rhs) h = Ok (this', h') /\
    size this' = size rhs /\
    capacity this' = capacity rhs /\
    slots h' (array this') = Some (size rhs) /\
    contents h' this' = contents h rhs /\
    (size rhs < capacity rhs -> ~ invariant h' this').
Proof.
  intros (Hsz & Hslots & Hcap) (Hrsz & Hrslots & Hrcap).
  unfold assign. cbn [rhs_now]. rewrite SimpleVector_sized_eq.
  assert (Hbreak : forall h' this',
    capacity this' = capacity rhs -> slots h' (array this') = Some (size rhs) ->
    size rhs < capacity rhs -> ~ invariant h' this').
  { intros h' this' Hc Hs Hlt (_ & Hs' & _). rewrite Hs in Hs'.
    injection Hs' as Hs'. lia. }
  destruct (decide (size rhs = 0)) as [Hz|Hnz].
  - assert (Hf0 : SimpleVector_filled (size rhs) Ty_default h
                   = Ok (MkSimpleVector 0 0 ArrayPtr_default, h)).
    { rewrite Hz. apply SimpleVector_filled_zero. }
    rewrite (bind_Ok _ _ _ _ _ Hf0).
    rewrite (bind_Ok _ _ _ _ _ (std_copy_nothing h rhs _ Hz)).
    destruct (ArrayPtr_delete_ok _ _ _ Hslots) as (h' & Hrun & Hlen & Hframe & Hfreed).
    unfold swap, ArrayPtr_swap, set_size, set_capacity, SimpleVector_destroy.
    cbn [size capacity array].
    rewrite (bind_Ok _ _ _ _ _ Hrun). unfold ret.
    eexists _, _. split; [reflexivity|]. cbn [size capacity array].
    split; [reflexivity|]. split; [reflexivity|].
    assert (Hs' : slots h' ArrayPtr_default = Some (size rhs)).
    { unfold slots. cbn. now rewrite Hz. }
    split; [exact Hs'|]. split.
    + unfold contents. cbn [size array]. rewrite Hz. reflexivity.
    + now apply Hbreak.
  - assert (Hpos : 0 < size rhs) by lia.
    rewrite (bind_Ok _ _ _ _ _ (SimpleVector_filled_pos h (size rhs) Ty_default Hpos)).
    set (full := replicate (Z.to_nat (size rhs)) (Some Ty_default)).
    assert (Hnd : raw_ptr (array rhs) <> Some (length h)).
    { intros Hk. pose proof (slots_lt _ _ _ _ Hrslots Hk). lia. }
    assert (Hnd' : raw_ptr (array this) <> Some (length h)).
    { intros Hk. pose proof (slots_lt _ _ _ _ Hslots Hk). lia. }
    destruct (std_copy_out (h ++ [Some full]) rhs (length h) full
                ltac:(lia) (slots_app _ _ _ _ Hrslots) Hnd (find_block_app_new _ _))
      as (bd' & Hrun1 & Hl1 & Htake1 & _).
    { unfold full. rewrite length_replicate. lia. }
    erewrite bind_Ok; [|exact Hrun1].
    assert (Hslots1 : slots (<[length h := Some bd']> (h ++ [Some full])) (array this)
                      = Some (capacity this)).
    { rewrite slots_insert_ne by assumption. now apply slots_app. }
    destruct (ArrayPtr_delete_ok _ _ _ Hslots1) as (h2 & Hrun2 & Hlen2 & Hframe & Hfreed).
    unfold swap, ArrayPtr_swap, set_size, set_capacity, SimpleVector_destroy.
    cbn [size capacity array].
    rewrite (bind_Ok _ _ _ _ _ Hrun2). unfold ret.
    eexists _, _. split; [reflexivity|]. cbn [size capacity array].
    split; [reflexivity|]. split; [reflexivity|].
    assert (Hf2 : find_block h2 (length h) = Some bd').
    { rewrite Hframe by assumption. apply find_block_insert_eq.
      rewrite length_app. simpl. lia. }
    assert (Hs' : slots h2 (MkArrayPtr (Some (length h))) = Some (size rhs)).
    { unfold slots. cbn [raw_ptr]. rewrite Hf2. f_equal.
      rewrite Hl1. unfold full. rewrite length_replicate. lia. }
    split; [exact Hs'|]. split.
    + unfold contents at 1, buffer. cbn [size array raw_ptr]. rewrite Hf2. simpl.
      rewrite Htake1. unfold contents. f_equal. eapply buffer_app; eauto.
    + now apply Hbreak.
Qed.

(** ** At and the index operator *)

(** C7. [At(index)] throws [out_of_range] exactly when [index >= size]; for
    [index < size] it returns the pointer to slot [index], which is what the
    unchecked operator returns. *)
Theorem At_spec (h : Heap) this i :
  (At this i h = Throw out_of_range <-> size this <= i) /\
  (i < size this ->
     At this i h = Ok (ptr_add (Get (array this)) i, h) /\
     At this i h = index this i h).
Proof.
  unfold At, index. split.
  - destruct (i <? size this) eqn:E; unfold ret, throw; split; intros H; try lia; try easy.
  - intros Hi. destruct (i <? size this) eqn:E; [|lia].
    split; [reflexivity|]. now rewrite (bind_Ok _ _ _ _ _ (assert_true h)).
Qed.

(** ** PopBack *)

(** C9. [PopBack] is a total function of the vector alone: it cannot fail
    and does not touch the heap.  On an empty vector it changes nothing; on
    a non-empty one the size drops by exactly one, capacity and buffer stay,
    and the elements at [0, new size) are the old ones. *)
Theorem PopBack_spec (h : Heap) this :
  is_size_t (size this) ->
  (size this = 0 -> PopBack this = this) /\
  (size this <> 0 ->
     size (PopBack this) = size this - 1 /\
     capacity (PopBack this) = capacity this /\
     array (PopBack this) = array this /\
     contents h (PopBack this) = take (Z.to_nat (size this - 1)) (contents h this)).
Proof.
  intros [H0 H1]. unfold PopBack. split.
  - intros ->. reflexivity.
  - intros Hne. destruct (size this =? 0) eqn:E; [lia|].
    rewrite wrap_small by lia. unfold set_size, contents. simpl.
    repeat split. rewrite take_take. f_equal. lia.
Qed.

(** ** Move construction *)

(** C10. Move construction hands the source's capacity, size and buffer to
    the new object and leaves the source with capacity 0, size 0 and the
    null buffer; the heap is not touched. *)
Theorem SimpleVector_move_spec (h : Heap) other :
  SimpleVector_move other = (other, SimpleVector_default) /\
  size (snd (SimpleVector_move other)) = 0 /\
  capacity (snd (SimpleVector_move other)) = 0 /\
  raw_ptr (array (snd (SimpleVector_move other))) = None /\
  contents h (fst (SimpleVector_move other)) = contents h other.
Proof.
  destruct other as [c s [a]]. repeat split.
Qed.

(** ** The invariant after the other public operations *)

Lemma SimpleVector_default_invariant (h : Heap) : invariant h SimpleVector_default.
Proof. unfold invariant, slots. cbn. repeat split; lia. Qed.

Lemma SimpleVector_filled_spec (h : Heap) n value :
  is_size_t n ->
  exists h' this,
    SimpleVector_filled n value h = Ok (this, h') /\
    size this = n /\ capacity this = n /\
    contents h' this = replicate (Z.to_nat n) (Some value) /\
    invariant h' this.
Proof.
  intros [Hn0 Hn1]. destruct (decide (n = 0)) as [->|Hnz].
  - eexists _, _. split; [apply SimpleVector_filled_zero|].
    repeat split; try reflexivity; cbn; lia.
  - eexists _, _. split; [apply SimpleVector_filled_pos; lia|].
    cbn [size capacity]. split; [reflexivity|]. split; [reflexivity|].
    unfold invariant, contents, buffer, slots. cbn [size capacity array raw_ptr].
    rewrite find_block_app_new. simpl. rewrite length_replicate.
    split; [|repeat split; try lia; f_equal; lia].
    apply take_ge. rewrite length_replicate. lia.
Qed.

Lemma SimpleVector_sized_spec (h : Heap) n :
  is_size_t n ->
  exists h' this,
    SimpleVector_sized n h = Ok (this, h') /\
    size this = n /\ capacity this = n /\
    contents h' this = replicate (Z.to_nat n) (Some Ty_default) /\
    invariant h' this.
Proof. rewrite SimpleVector_sized_eq. apply SimpleVector_filled_spec. Qed.

Lemma SimpleVector_reserved_spec (h : Heap) n :
  is_size_t n ->
  exists h' this,
    SimpleVector_reserved (Reserve_proxy n) h = Ok (this, h') /\
    size this = 0 /\ capacity this = n /\
    invariant h' this.
Proof.
  intros [Hn0 Hn1]. unfold SimpleVector_reserved, Reserve_proxy. cbn [reserve_size].
  destruct (decide (n = 0)) as [->|Hnz].
  - rewrite (bind_Ok _ _ _ _ _ (ArrayPtr_new_zero h)).
    eexists _, _. split; [reflexivity|]. repeat split; cbn; lia.
  - rewrite (bind_Ok _ _ _ _ _ (ArrayPtr_new_pos h n ltac:(lia))).
    eexists _, _. split; [reflexivity|]. cbn [size capacity].
    split; [reflexivity|]. split; [reflexivity|].
    unfold invariant, slots. cbn [size capacity array raw_ptr].
    rewrite find_block_app_new, length_replicate.
    repeat split; try lia. f_equal. lia.
Qed.

(** X3. The initializer-list constructor returns a vector of size and
    capacity [length init] whose elements are those of the list, in
    order. *)
Lemma SimpleVector_init_spec (h : Heap) (init : list Ty) :
  Z.of_nat (length init) < SIZE_MODULUS ->
  exists h' this,
    SimpleVector_init init h = Ok (this, h') /\
    size this = Z.of_nat (length init) /\
    capacity this = Z.of_nat (length init) /\
    contents h' this = Some <$> init /\
    invariant h' this.
Proof.
  intros Hlen. unfold SimpleVector_init.
  destruct init as [|x init].
  - rewrite (bind_Ok _ _ _ _ _ (ArrayPtr_new_zero h)). cbn [copy_list].
    eexists _, _. split; [reflexivity|]. repeat split; cbn; lia.
  - set (l := x :: init) in *.
    assert (Hpos : 0 < Z.of_nat (length l)) by (unfold l; simpl; lia).
    rewrite (bind_Ok _ _ _ _ _ (ArrayPtr_new_pos h _ Hpos)).
    rewrite Nat2Z.id.
    set (raw := replicate (length l) None).
    destruct (copy_list_spec l (h ++ [Some raw]) (length h) raw 0
                (find_block_app_new _ _)) as (bd' & Hrun & Hl & Hin & _).
    { unfold raw. rewrite length_replicate. lia. }
    erewrite bind_Ok; [|exact Hrun]. unfold ret. rewrite heap_fill_new.
    eexists _, _. split; [reflexivity|]. cbn [size capacity].
    split; [reflexivity|]. split; [reflexivity|].
    unfold raw in Hl. rewrite length_replicate in Hl.
    unfold invariant, contents, buffer, slots. cbn [size capacity array raw_ptr].
    rewrite find_block_app_new. simpl default. rewrite Hl.
    split; [|repeat split; lia].
    rewrite Nat2Z.id, take_ge by lia.
    apply list_eq. intros j. rewrite list_lookup_fmap.
    destruct (decide (j < length l)%nat) as [Hj|Hj].
    + now rewrite <- (Hin j Hj).
    + rewrite !lookup_ge_None_2 by lia. reflexivity.
Qed.

Lemma SimpleVector_copy_spec (h : Heap) other :
  invariant h other ->
  exists h' this,
    SimpleVector_copy other h = Ok (this, h') /\
    size this = size other /\
    capacity this = size other /\
    contents h' this = contents h other /\
    invariant h' this.
Proof.
  intros (Hsz & Hslots & Hcap). unfold SimpleVector_copy.
  destruct (decide (size other = 0)) as [Hz|Hnz].
  - assert (Hnew : ArrayPtr_new (size other) h = Ok (ArrayPtr_default, h)).
    { rewrite Hz. apply ArrayPtr_new_zero. }
    rewrite (bind_Ok _ _ _ _ _ Hnew).
    rewrite (bind_Ok _ _ _ _ _ (std_copy_nothing h other _ Hz)).
    eexists _, _. split; [reflexivity|]. cbn [size capacity].
    split; [reflexivity|]. split; [reflexivity|].
    unfold invariant, contents, slots. cbn [size capacity array raw_ptr].
    rewrite Hz. repeat split; lia.
  - rewrite (bind_Ok _ _ _ _ _ (ArrayPtr_new_pos h (size other) ltac:(lia))).
    set (raw := replicate (Z.to_nat (size other)) None).
    assert (Hnd : raw_ptr (array other) <> Some (length h)).
    { intros Hk. pose proof (slots_lt _ _ _ _ Hslots Hk). lia. }
    destruct (std_copy_out (h ++ [Some raw]) other (length h) raw
                ltac:(lia) (slots_app _ _ _ _ Hslots) Hnd (find_block_app_new _ _))
      as (bd' & Hrun & Hl & Htake & _).
    { unfold raw. rewrite length_replicate. lia. }
    erewrite bind_Ok; [|exact Hrun]. unfold ret. rewrite heap_fill_new.
    eexists _, _. split; [reflexivity|]. cbn [size capacity].
    split; [reflexivity|]. split; [reflexivity|].
    unfold raw in Hl. rewrite length_replicate in Hl.
    unfold invariant, slots. cbn [size capacity array raw_ptr].
    rewrite find_block_app_new. split; [|repeat split; try lia; f_equal; lia].
    unfold contents at 1, buffer. cbn [size array raw_ptr].
    rewrite find_block_app_new. simpl default. rewrite Htake.
    unfold contents. f_equal. eapply buffer_app; eauto.
Qed.

Lemma swap_invariant (h : Heap) this other :
  invariant h this -> invariant h other ->
  invariant h (fst (swap this other)) /\ invariant h (snd (swap this other)).
Proof. intros H1 H2. split; [exact H2|exact H1]. Qed.

Lemma SimpleVector_move_invariant (h : Heap) other :
  invariant h other ->
  invariant h (fst (SimpleVector_move other)) /\
  invariant h (snd (SimpleVector_move other)).
Proof.
  intros H. split; [exact H|]. apply SimpleVector_default_invariant.
Qed.

Lemma Clear_invariant (h : Heap) this :
  invariant h this ->
  invariant h (Clear this) /\ size (Clear this) = 0 /\
  capacity (Clear this) = capacity this.
Proof.
  intros (Hsz & Hslots & Hcap). unfold Clear, set_size, invariant.
  cbn [size capacity array]. repeat split; auto; lia.
Qed.

Lemma PopBack_invariant (h : Heap) this :
  invariant h this -> invariant h (PopBack this).
Proof.
  intros (Hsz & Hslots & Hcap). unfold PopBack.
  destruct (size this =? 0) eqn:Hz; [now repeat split|].
  rewrite wrap_small by lia. unfold set_size, invariant.
  cbn [size capacity array]. repeat split; auto; lia.
Qed.


(** ** Constructors, and what a copy shares with its source *)

(** The copy constructor allocates at most one block, at the next free
    address, and leaves every other block as it was. *)
Lemma SimpleVector_copy_frame (h : Heap) other :
  invariant h other ->
  exists h' this,
    SimpleVector_copy other h = Ok (this, h') /\
    size this = size other /\
    capacity this = size other /\
    contents h' this = contents h other /\
    contents h' other = contents h other /\
    invariant h' this /\ invariant h' other /\
    ((h' = h /\ raw_ptr (array this) = None) \/
     (0 < size other /\ exists bd, h' = h ++ [Some bd] /\
        raw_ptr (array this) = Some (length h))).
Proof.
  intros Hinv. pose proof Hinv as (Hsz & Hslots & Hcap).
  destruct (SimpleVector_copy_spec h other Hinv)
    as (h' & this & Hrun & Hs & Hc & Hcont & Hinv').
  assert (Hcases : (h' = h /\ raw_ptr (array this) = None) \/
                   (0 < size other /\ exists bd, h' = h ++ [Some bd] /\
                      raw_ptr (array this) = Some (length h))).
  { unfold SimpleVector_copy in Hrun.
    apply bind_inv in Hrun as (a & h0 & Hnew & Hrun).
    apply bind_inv in Hrun as ([] & h1 & Hcopy & Hret).
    unfold ret in Hret. injection Hret as <- <-.
    unfold ArrayPtr_new in Hnew. destruct (size other =? 0) eqn:Hz.
    - injection Hnew as <- <-. left. split; [|reflexivity].
      rewrite std_copy_nothing in Hcopy by lia. now injection Hcopy.
    - injection Hnew as <- <-. right. split; [lia|].
      set (raw := replicate (Z.to_nat (size other)) None) in *.
      assert (Hnd : raw_ptr (array other) <> Some (length h)).
      { intros Hk. pose proof (slots_lt _ _ _ _ Hslots Hk). lia. }
      destruct (std_copy_out (h ++ [Some raw]) other (length h) raw
                  ltac:(lia) (slots_app _ _ _ _ Hslots) Hnd (find_block_app_new _ _))
        as (bd' & Hrun' & _).
      { unfold raw. rewrite length_replicate. lia. }
      change (begin (MkSimpleVector (size other) (size other)
                       (MkArrayPtr (Some (length h)))))
        with (MkPtr (Some (length h)) 0) in Hcopy.
      rewrite Hrun' in Hcopy. injection Hcopy as <-.
      exists bd'. split; [apply heap_fill_new|reflexivity]. }
  assert (Hother : slots h' (array other) = Some (capacity other) /\
                   buffer h' (array other) = buffer h (array other)).
  { destruct Hcases as [[-> _]|(_ & bd & -> & _)]; [now split|].
    split; [now apply slots_app|eapply buffer_app; eauto]. }
  destruct Hother as (Hslots' & Hbuf').
  exists h', this.
  split; [exact Hrun|]. split; [exact Hs|]. split; [exact Hc|]. split; [exact Hcont|].
  split; [unfold contents; now rewrite Hbuf'|].
  split; [exact Hinv'|]. split; [now repeat split|exact Hcases].
Qed.

(** X4. The copy constructor makes a deep copy with capacity cut down to the
    size of the source: the source keeps its elements, a non-empty copy
    owns a buffer of its own, and the copy can be destroyed without touching
    the source. *)
Theorem SimpleVector_copy_independent (h : Heap) other :
  invariant h other ->
  exists h' this h'',
    SimpleVector_copy other h = Ok (this, h') /\
    size this = size other /\
    capacity this = size other /\
    contents h' this = contents h other /\
    contents h' other = contents h other /\
    invariant h' this /\ invariant h' other /\
    (0 < size other -> raw_ptr (array this) <> raw_ptr (array other)) /\
    SimpleVector_destroy this h' = Ok (tt, h'') /\
    contents h'' other = contents h other /\
    invariant h'' other.
Proof.
  intros Hinv. pose proof Hinv as (Hsz & Hslots & Hcap).
  destruct (SimpleVector_copy_frame h other Hinv)
    as (h' & this & Hrun & Hs & Hc & Hcont & Hcont' & Hinv' & Hinvo & Hcases).
  assert (Hne : forall k, raw_ptr (array other) = Some k -> raw_ptr (array this) <> Some k).
  { intros k Hk. destruct Hcases as [[_ Hnull]|(_ & bd & _ & Hkk)].
    - rewrite Hnull. discriminate.
    - rewrite Hkk. intros [= <-].
      pose proof (slots_lt _ _ _ _ Hslots Hk). lia. }
  pose proof Hinv' as (Hsz' & Hs' & Hcap').
  pose proof Hinvo as (_ & Hslots' & _).
  destruct (ArrayPtr_delete_ok _ _ _ Hs') as (h'' & Hdel & Hlen & Hframe & _).
  assert (Hkeep : slots h'' (array other) = slots h' (array other) /\
                  buffer h'' (array other) = buffer h' (array other)).
  { unfold slots, buffer.
    destruct (raw_ptr (array other)) as [k|] eqn:Hk; [|now split].
    rewrite (Hframe k (Hne k eq_refl)). now split. }
  destruct Hkeep as (Hslots'' & Hbuf'').
  exists h', this, h''.
  split; [exact Hrun|]. split; [exact Hs|]. split; [exact Hc|]. split; [exact Hcont|].
  split; [exact Hcont'|]. split; [exact Hinv'|]. split; [exact Hinvo|]. split.
  { intros Hpos Heq. destruct (raw_ptr (array other)) as [k|] eqn:Hk.
    - now apply (Hne k).
    - destruct (invariant_block _ _ Hinv) as (k & b & Ha & _); [lia|].
      rewrite Ha in Hk. discriminate. }
  split; [exact Hdel|]. split.
  - rewrite <- Hcont'. unfold contents. now rewrite Hbuf''.
  - split; [exact Hsz|]. split; [now rewrite Hslots''|exact Hcap].
Qed.

(** ** Insert through the move variant, in more detail *)

Lemma Insert_move_run (h : Heap) this n value :
  invariant h this -> 0 <= n <= size this -> n < size this \/ NDEBUG = true ->
  capacity this * 2 < SIZE_MODULUS ->
  exists h1 this' a (b2 : block),
    Resize this (wrap (size this + 1)) h = Ok (this', h1) /\
    array this' = MkArrayPtr (Some a) /\
    (a < length h1)%nat /\
    Insert_move this (ptr_add (begin this) n) value h
      = Ok ((ptr_add (begin this') n, this'), <[a := Some b2]> h1).
Proof.
  intros Hinv Hn Hpos Hdbl.
  destruct (Resize_grow_one h this Hinv) as
    (h1 & this1 & a & b1 & Hrun & Ha & Hs1 & Hb1 & Hl1 & Hc1 & Htake); [lia|].
  destruct (std_move_backward_shift_right h1 a b1 (Z.to_nat n) (Z.to_nat (size this)) Hb1)
    as (b' & Hmv & Hl & Hlo & Hmid & Hhi); [lia|lia|].
  pose proof (find_block_lt _ _ _ Hb1) as Halt.
  assert (Hb' : find_block (<[a := Some b']> h1) a = Some b')
    by now apply find_block_insert_eq.
  destruct (lookup_lt_is_Some_2 b' (Z.to_nat n)) as [c Hc]; [lia|].
  exists h1, this1, a, (<[Z.to_nat n := Some value]> b').
  split; [exact Hrun|]. split; [exact Ha|]. split; [exact Halt|].
  unfold Insert_move.
  erewrite bind_Ok; cycle 1.
  { destruct Hpos as [Hlt|Hnd]; [apply assert_pos_ok; lia|now apply assert_release]. }
  erewrite bind_Ok; [|now apply distance_ok].
  rewrite (bind_Ok _ _ _ _ _ Hrun).
  ptr_simpl. rewrite Ha, Hs1. cbn [raw_ptr].
  replace (0 + n - 0) with n by lia.
  erewrite bind_Ok; cycle 1.
  { replace (0 + n) with (Z.of_nat (Z.to_nat n)) by lia.
    replace (0 + (size this + 1) + -1) with (Z.of_nat (Z.to_nat (size this))) by lia.
    replace (0 + (size this + 1)) with (Z.of_nat (Z.to_nat (size this)) + 1) by lia.
    exact Hmv. }
  erewrite bind_Ok; cycle 1.
  { eapply load_ok; [exact Hb'|lia|].
    replace (Z.to_nat (0 + n)) with (Z.to_nat n) by lia. exact Hc. }
  erewrite bind_Ok; cycle 1.
  { eapply store_ok; [exact Hb'|lia]. }
  unfold ret. rewrite list_insert_insert_eq.
  now replace (Z.to_nat (0 + n)) with (Z.to_nat n) by lia.
Qed.

(** X7. The growth policy as [Insert] shows it.  With at least two free slots
    the element is inserted in place: capacity and buffer stay, so iterators
    stay valid.  With one free slot or none the buffer is reallocated, even
    though one free slot would have held the element: the capacity becomes
    [max(size + 1, 2 * capacity)], the buffer is a fresh block, and the old
    block is released, so every iterator obtained before dangles. *)
Theorem Insert_move_growth (h : Heap) this n value :
  invariant h this -> 0 <= n <= size this -> n < size this \/ NDEBUG = true ->
  capacity this * 2 < SIZE_MODULUS ->
  exists h' this',
    Insert_move this (ptr_add (begin this) n) value h
      = Ok ((ptr_add (begin this') n, this'), h') /\
    (size this + 1 < capacity this ->
       capacity this' = capacity this /\ array this' = array this) /\
    (capacity this <= size this + 1 ->
       capacity this' = Z.max (size this + 1) (2 * capacity this) /\
       raw_ptr (array this') = Some (length h) /\
       forall k, raw_ptr (array this) = Some k ->
                 k <> length h /\ find_block h' k = None).
Proof.
  intros Hinv Hn Hpos Hdbl.
  destruct (Insert_move_run h this n value Hinv Hn Hpos Hdbl)
    as (h1 & this' & a & b2 & Hres & Ha & Halt & Hrun).
  pose proof Hinv as (Hsz & Hslots & Hc).
  assert (Hw : wrap (size this + 1) = size this + 1).
  { apply wrap_small. pose proof SIZE_MODULUS_gt_1. lia. }
  rewrite Hw in Hres.
  exists (<[a := Some b2]> h1), this'. split; [exact Hrun|]. split.
  - intros Hroom. rewrite Resize_in_place in Hres by lia.
    injection Hres as <- <-. now split.
  - intros Hfull.
    destruct (Resize_realloc h this (size this + 1) Hinv) as
      (h'' & bd & Hrun' & _ & _ & _ & _ & _ & Hfreed); [lia|lia|].
    rewrite Hrun' in Hres. injection Hres as <- <-.
    cbn [capacity array raw_ptr]. rewrite wrap_small by lia.
    split; [f_equal; lia|]. split; [reflexivity|].
    intros k Hk. pose proof (slots_lt _ _ _ _ Hslots Hk) as Hlt.
    cbn [array] in Ha. injection Ha as <-.
    split; [lia|]. rewrite find_block_insert_ne by lia. now apply Hfreed.
Qed.

(** The capacity after an insertion, whichever branch [Resize] took. *)
Lemma Insert_move_bounds (h : Heap) this n value :
  invariant h this -> 0 <= n <= size this -> n < size this \/ NDEBUG = true ->
  capacity this * 2 < SIZE_MODULUS ->
  exists h' this',
    Insert_move this (ptr_add (begin this) n) value h
      = Ok ((ptr_add (begin this') n, this'), h') /\
    capacity this <= capacity this' <= Z.max (capacity this) (2 * (size this + 1)).
Proof.
  intros Hinv Hn Hpos Hdbl.
  destruct (Insert_move_run h this n value Hinv Hn Hpos Hdbl)
    as (h1 & this' & a & b2 & Hres & Ha & Halt & Hrun).
  pose proof Hinv as (Hsz & Hslots & Hc).
  assert (Hw : wrap (size this + 1) = size this + 1).
  { apply wrap_small. pose proof SIZE_MODULUS_gt_1. lia. }
  rewrite Hw in Hres.
  exists (<[a := Some b2]> h1), this'. split; [exact Hrun|].
  destruct (decide (size this + 1 < capacity this)) as [Hlt|Hge].
  - rewrite Resize_in_place in Hres by lia. injection Hres as <- <-. cbn. lia.
  - destruct (Resize_realloc h this (size this + 1) Hinv) as
      (h'' & bd & Hrun' & _); [lia|lia|].
    rewrite Hrun' in Hres. injection Hres as <- <-.
    cbn [capacity]. rewrite wrap_small by lia. lia.
Qed.

(** ** Repeated append *)

Lemma PushBack_move_step (h : Heap) this item :
  NDEBUG = true -> invariant h this -> capacity this * 2 < SIZE_MODULUS ->
  exists h' this',
    PushBack_move this item h = Ok (this', h') /\
    size this' = size this + 1 /\
    contents h' this' = contents h this ++ [Some item] /\
    invariant h' this' /\
    capacity this <= capacity this' <= Z.max (capacity this) (2 * (size this + 1)).
Proof.
  intros Hnd Hinv Hdbl. pose proof Hinv as (Hsz & Hslots & _).
  destruct (PushBack_move_release h this item Hnd Hinv Hdbl)
    as (h' & this' & Hrun & Hs & Hc & Hinv').
  destruct (Insert_move_bounds h this (size this) item Hinv ltac:(lia)
              (or_intror Hnd) Hdbl) as (h2 & this2 & Hrun2 & Hbounds).
  assert (this2 = this') as ->.
  { unfold PushBack_move in Hrun.
    change (ptr_add (begin this) (size this)) with (end_ this) in Hrun2.
    rewrite (bind_Ok _ _ _ _ _ Hrun2) in Hrun. unfold ret in Hrun. cbn in Hrun.
    congruence. }
  exists h', this'. repeat (split; [assumption|]). exact Hbounds.
Qed.

(** X8. Appending a list of items one at a time (in a build with [NDEBUG], where
    [PushBack] passes its own assertion) gives the old elements followed by
    the items in order; the capacity never shrinks, is at least the number
    of elements, and is at most twice that number unless it was larger
    before. *)
Theorem PushBack_all_spec (items : list Ty) : forall (h : Heap) this,
  NDEBUG = true -> invariant h this ->
  capacity this * 2 < SIZE_MODULUS ->
  4 * (size this + Z.of_nat (length items)) < SIZE_MODULUS ->
  exists h' this',
    PushBack_all this items h = Ok (this', h') /\
    size this' = size this + Z.of_nat (length items) /\
    contents h' this' = contents h this ++ (Some <$> items) /\
    invariant h' this' /\
    size this' <= capacity this' /\
    capacity this <= capacity this' <= Z.max (capacity this) (2 * size this').
Proof.
  induction items as [|x items IH]; intros h this Hnd Hinv Hdbl Hbound.
  - exists h, this. cbn [PushBack_all length fmap list_fmap]. unfold ret.
    rewrite app_nil_r. pose proof Hinv as (Hsz & _).
    split; [reflexivity|]. split; [simpl; lia|]. split; [reflexivity|].
    split; [exact Hinv|]. lia.
  - cbn [length] in Hbound.
    destruct (PushBack_move_step h this x Hnd Hinv Hdbl)
      as (h1 & this1 & Hrun1 & Hs1 & Hc1 & Hinv1 & Hcap1).
    destruct (IH h1 this1 Hnd Hinv1) as (h' & this' & Hrun & Hs & Hc & Hinv' & _ & Hcap);
      [lia|lia|].
    exists h', this'. cbn [PushBack_all].
    rewrite (bind_Ok _ _ _ _ _ Hrun1).
    split; [exact Hrun|]. cbn [length].
    split; [lia|]. split.
    { rewrite Hc, Hc1, <- app_assoc. reflexivity. }
    split; [exact Hinv'|]. pose proof Hinv' as (Hsz' & _).
    split; lia.
Qed.

(** ** Insert and Erase undo each other *)

Lemma insert_then_remove {A} (l : list A) (n : nat) (v : A) :
  (n <= length l)%nat ->
  take n (take n l ++ v :: drop n l) ++ drop (S n) (take n l ++ v :: drop n l) = l.
Proof.
  intros Hn.
  assert (Hl : length (take n l) = n) by (rewrite length_take; lia).
  rewrite take_app_length' by (symmetry; exact Hl).
  replace (take n l ++ v :: drop n l) with ((take n l ++ [v]) ++ drop n l)
    by (rewrite <- app_assoc; reflexivity).
  rewrite drop_app_length' by (rewrite length_app, Hl; simpl; lia).
  apply take_drop.
Qed.

(** What [Erase] at a valid position leaves behind. *)
Lemma Erase_ok (h : Heap) this n :
  invariant h this -> 0 <= n < size this ->
  exists h' this',
    Erase this (ptr_add (begin this) n) h = Ok ((ptr_add (begin this') n, this'), h') /\
    size this' = size this - 1 /\
    capacity this' = capacity this /\
    contents h' this' =
      take (Z.to_nat n) (contents h this) ++ drop (S (Z.to_nat n)) (contents h this) /\
    invariant h' this'.
Proof.
  intros Hinv Hn.
  destruct (invariant_block _ _ Hinv) as (k & b & Ha & Hb & Hlen);
    [destruct Hinv; lia|].
  destruct Hinv as (Hsz & Hslots & Hcap).
  destruct (std_move_shift_left h k b (Z.to_nat n) (Z.to_nat (size this)) Hb)
    as (b' & Hrun & Hl & Hlo & Hmid & _); [lia|].
  assert (Hb' : find_block (<[k := Some b']> h) k = Some b').
  { apply find_block_insert_eq. eapply find_block_lt; eauto. }
  exists (<[k := Some b']> h), (set_size this (size this - 1)).
  split; [|split; [reflexivity|split; [reflexivity|split]]].
  - unfold Erase.
    rewrite (bind_Ok _ _ _ _ _ (assert_pos_ok h this n Hn)).
    erewrite bind_Ok; [|now apply distance_ok].
    ptr_simpl. rewrite Ha. cbn [raw_ptr].
    replace (0 + n - 0) with n by lia.
    erewrite bind_Ok; cycle 1.
    { replace (0 + n + 1) with (Z.of_nat (Z.to_nat n) + 1) by lia.
      replace (0 + n) with (Z.of_nat (Z.to_nat n)) by lia.
      replace (0 + size this) with (Z.of_nat (Z.to_nat (size this))) by lia.
      exact Hrun. }
    unfold ret. rewrite wrap_small by (unfold SIZE_MODULUS in *; lia).
    unfold set_size. cbn [array capacity size]. now rewrite Ha.
  - unfold contents, buffer, set_size. cbn [size array]. rewrite Ha. cbn [raw_ptr].
    rewrite Hb, Hb'. simpl.
    replace (Z.to_nat (size this - 1)) with (Z.to_nat (size this) - 1)%nat by lia.
    apply shift_left_take; try lia; auto.
  - unfold invariant, set_size, slots. cbn [size capacity array]. rewrite Ha.
    cbn [raw_ptr]. rewrite Hb'. repeat split; try lia. f_equal. lia.
Qed.

(** X11. Inserting a value with the move variant and erasing at the returned
    iterator gives back the original size and live sequence (the capacity
    may have grown). *)
Theorem Insert_move_Erase_roundtrip (h : Heap) this n value :
  invariant h this -> 0 <= n <= size this -> n < size this \/ NDEBUG = true ->
  capacity this * 2 < SIZE_MODULUS ->
  exists h1 this1 p h2 this2 q,
    Insert_move this (ptr_add (begin this) n) value h = Ok ((p, this1), h1) /\
    Erase this1 p h1 = Ok ((q, this2), h2) /\
    size this2 = size this /\
    contents h2 this2 = contents h this /\
    capacity this <= capacity this2 /\
    invariant h2 this2.
Proof.
  intros Hinv Hn Hpos Hdbl. pose proof Hinv as (Hsz & Hslots & _).
  destruct (Insert_move_spec h this n value Hinv Hn Hpos Hdbl)
    as (h1 & this1 & Hrun1 & Hs1 & Hc1 & _ & Hinv1).
  destruct (Insert_move_bounds h this n value Hinv Hn Hpos Hdbl)
    as (h1' & this1' & Hrun1' & Hbounds).
  rewrite Hrun1 in Hrun1'. injection Hrun1' as _ <- <-.
  destruct (Erase_ok h1 this1 n Hinv1) as
    (h2 & this2 & Hrun2 & Hs2 & Hcap2 & Hc2 & Hinv2); [lia|].
  exists h1, this1, (ptr_add (begin this1) n), h2, this2, (ptr_add (begin this2) n).
  split; [exact Hrun1|]. split; [exact Hrun2|]. split; [lia|]. split.
  - rewrite Hc2, Hc1. apply insert_then_remove.
    rewrite (contents_length h this Hsz Hslots). lia.
  - split; [|exact Hinv2]. rewrite Hcap2. lia.
Qed.

(** ** Positions and indices that are not valid *)



(** X14. [Erase(end())] never erases anything: with assertions it stops at the
    assertion, without them the range handed to [std::move] starts behind
    its end, which is undefined. *)
Theorem Erase_end (h : Heap) this :
  Erase this (end_ this) h = if NDEBUG then UB else AssertFail.
Proof.
  unfold Erase, bind, assert_.
  assert (Hlt : ptr_lt (end_ this) (end_ this) = false).
  { unfold ptr_lt. rewrite blk_eqb_refl. cbn [andb]. apply Z.ltb_irrefl. }
  rewrite Hlt, andb_false_r.
  destruct NDEBUG; [|reflexivity].
  unfold distance, std_move, range_len, bind. ptr_simpl.
  rewrite !blk_eqb_refl. cbn [andb ret].
  destruct (0 + (0 + size this - 0) + 1 <=? 0 + size this) eqn:E; [lia|reflexivity].
Qed.

(** X15. Whatever [At] returns can be dereferenced: for a vector that satisfies
    the invariant, a successful [At(i)] leaves the heap alone and yields a
    pointer whose target is the [i]-th live element. *)
Theorem At_dereferenceable (h : Heap) this i p h' :
  invariant h this -> 0 <= i ->
  At this i h = Ok (p, h') ->
  h' = h /\
  exists c, load p h = Ok (c, h) /\ contents h this !! Z.to_nat i = Some c.
Proof.
  intros Hinv Hi Hrun. unfold At in Hrun.
  destruct (i <? size this) eqn:E; [|discriminate].
  unfold ret in Hrun. injection Hrun as <- <-. split; [reflexivity|].
  destruct (invariant_block _ _ Hinv) as (k & b & Ha & Hb & Hlen);
    [destruct Hinv; lia|].
  destruct Hinv as (Hsz & _).
  destruct (lookup_lt_is_Some_2 b (Z.to_nat i)) as [c Hc]; [lia|].
  exists c. split.
  - ptr_simpl. rewrite Ha. cbn [raw_ptr]. eapply load_ok; [exact Hb|lia|].
    now replace (Z.to_nat (0 + i)) with (Z.to_nat i) by lia.
  - unfold contents, buffer. rewrite Ha. cbn [raw_ptr]. rewrite Hb. simpl.
    rewrite lookup_take_lt by lia. exact Hc.
Qed.

(** X16. Without assertions the index operator checks nothing: it returns a
    pointer for every index, and for an index at or beyond the capacity that
    pointer lies outside the buffer, so reading through it is undefined. *)
Theorem index_release_unchecked (h : Heap) this i :
  NDEBUG = true ->
  index this i h = Ok (ptr_add (Get (array this)) i, h) /\
  (invariant h this -> capacity this <= i ->
   load (ptr_add (Get (array this)) i) h = UB).
Proof.
  intros Hnd. split.
  - unfold index. now rewrite (bind_Ok _ _ _ _ _ (assert_release _ h Hnd)).
  - intros (Hsz & Hslots & _) Hi. unfold load, slots in *. ptr_simpl.
    destruct (raw_ptr (array this)) as [k|]; [|reflexivity].
    destruct (find_block h k) as [b|]; [|reflexivity].
    injection Hslots as Hlen.
    destruct (0 + i <? 0) eqn:E; [reflexivity|].
    rewrite lookup_ge_None_2 by lia. reflexivity.
Qed.

(** ** Destruction *)

(** X17. After move construction both objects can be destroyed, in either order:
    the buffer is released once, by the new object, and the moved-from
    source has nothing to release. *)
Theorem SimpleVector_move_destroy_both (h : Heap) other :
  invariant h other ->
  exists h1,
    SimpleVector_destroy (fst (SimpleVector_move other)) h = Ok (tt, h1) /\
    SimpleVector_destroy (snd (SimpleVector_move other)) h1 = Ok (tt, h1) /\
    SimpleVector_destroy (snd (SimpleVector_move other)) h = Ok (tt, h) /\
    (forall k, raw_ptr (array other) = Some k -> find_block h1 k = None).
Proof.
  intros (Hsz & Hslots & Hcap).
  destruct (ArrayPtr_delete_ok _ _ _ Hslots) as (h1 & Hrun & _ & _ & Hfreed).
  exists h1. destruct other as [c s a]. cbn in *.
  split; [exact Hrun|]. repeat split. exact Hfreed.
Qed.

(** ** More on the constructors *)

(** X1. [SimpleVector(n)] and [SimpleVector(n, value)] return a vector of size
    and capacity [n] whose elements all are [Type()], respectively
    [value]. *)
Theorem SimpleVector_sized_filled (h : Heap) n value :
  is_size_t n ->
  (exists h' this,
     SimpleVector_sized n h = Ok (this, h') /\
     size this = n /\ capacity this = n /\
     contents h' this = replicate (Z.to_nat n) (Some Ty_default) /\
     invariant h' this) /\
  (exists h' this,
     SimpleVector_filled n value h = Ok (this, h') /\
     size this = n /\ capacity this = n /\
     contents h' this = replicate (Z.to_nat n) (Some value) /\
     invariant h' this).
Proof.
  intros Hn. split.
  - now apply SimpleVector_sized_spec.
  - now apply SimpleVector_filled_spec.
Qed.


(** ** More on Insert, Resize and Reserve *)


(** X18. When [Resize] reallocates, the new live elements are value-initialised,
    the slots behind them are raw, and the old block is released: the old
    [begin()] can no longer be read. *)
Theorem Resize_realloc_initialises (h : Heap) this new_size :
  invariant h this -> size this < new_size -> capacity this <= new_size ->
  exists h' this',
    Resize this new_size h = Ok (this', h') /\
    contents h' this' =
      contents h this ++ replicate (Z.to_nat (new_size - size this)) (Some Ty_default) /\
    (forall j, new_size <= Z.of_nat j < capacity this' ->
               buffer h' (array this') !! j = Some None) /\
    load (begin this) h' = UB.
Proof.
  intros Hinv Hgrow Hcap.
  destruct (Resize_realloc h this new_size Hinv Hgrow Hcap)
    as (h' & bd & Hrun & Hfind & Hlen & Htake & Hraw & _ & Hfreed).
  eexists h', _. split; [exact Hrun|].
  unfold contents at 1, buffer. cbn [size capacity array raw_ptr]. rewrite Hfind. simpl.
  split; [exact Htake|]. split.
  - intros j Hj. apply Hraw. lia.
  - unfold load. ptr_simpl.
    destruct (raw_ptr (array this)) as [k|]; [|reflexivity].
    now rewrite (Hfreed k eq_refl).
Qed.

(** X19. [Reserve(c)] with [c >= capacity] always moves the elements to a new
    block, also when [c] equals the capacity: the spare slots of the new
    block are value-initialised (the block comes from [SimpleVector(c)]),
    the old block is released and the old [begin()] can no longer be
    read. *)
Theorem Reserve_realloc (h : Heap) this c :
  invariant h this -> capacity this <= c -> 0 < c ->
  exists h' this',
    Reserve this (Reserve_proxy c) h = Ok (this', h') /\
    raw_ptr (array this') = Some (length h) /\
    buffer h' (array this') =
      contents h this ++ replicate (Z.to_nat (c - size this)) (Some Ty_default) /\
    load (begin this) h' = UB.
Proof.
  intros Hinv Hc Hcpos. pose proof Hinv as (Hsz & Hslots & Hcap).
  unfold Reserve, Reserve_proxy. cbn [reserve_size].
  destruct (c <? capacity this) eqn:E; [lia|].
  rewrite SimpleVector_sized_eq.
  rewrite (bind_Ok _ _ _ _ _ (SimpleVector_filled_pos h c Ty_default Hcpos)).
  set (full := replicate (Z.to_nat c) (Some Ty_default)).
  assert (Hnd : raw_ptr (array this) <> Some (length h)).
  { intros Hk. pose proof (slots_lt _ _ _ _ Hslots Hk). lia. }
  destruct (std_move_out (h ++ [Some full]) this (length h) full Hsz
              (slots_app _ _ _ _ Hslots) Hnd (find_block_app_new _ _))
    as (h1 & bd' & Hrun1 & Hf1 & Hl1 & Htake1 & Hrest & Hslots1 & Hlen1).
  { unfold full. rewrite length_replicate. lia. }
  erewrite bind_Ok; [|exact Hrun1].
  destruct (ArrayPtr_delete_ok _ _ _ Hslots1) as (h2 & Hrun2 & Hlen2 & Hframe & Hfreed).
  unfold swap, ArrayPtr_swap, set_size, SimpleVector_destroy.
  cbn [size capacity array].
  rewrite (bind_Ok _ _ _ _ _ Hrun2). unfold ret.
  eexists _, _. split; [reflexivity|]. cbn [size capacity array raw_ptr].
  assert (Hf2 : find_block h2 (length h) = Some bd') by now rewrite Hframe.
  split; [reflexivity|]. split.
  - unfold buffer. cbn [raw_ptr]. rewrite Hf2. simpl.
    unfold contents in Htake1. rewrite (buffer_app _ _ _ _ Hslots) in Htake1.
    fold (contents h this) in Htake1. rewrite <- Htake1.
    unfold full in *. rewrite length_replicate in Hl1.
    assert (Hlt : length (take (Z.to_nat (size this)) bd') = Z.to_nat (size this)).
    { rewrite length_take. lia. }
    apply list_eq. intros j.
    destruct (decide (j < Z.to_nat (size this))%nat) as [Hj|Hj].
    + rewrite lookup_app_l by lia. now rewrite lookup_take_lt by lia.
    + rewrite lookup_app_r by lia. rewrite Hlt, Hrest by lia.
      destruct (decide (j < Z.to_nat c)%nat) as [Hjc|Hjc].
      * rewrite !lookup_replicate_2 by lia. reflexivity.
      * rewrite (lookup_ge_None_2 (replicate (Z.to_nat c) _)) by (rewrite length_replicate; lia).
        symmetry. apply lookup_ge_None_2. rewrite length_replicate. lia.
  - unfold load. ptr_simpl.
    destruct (raw_ptr (array this)) as [k|]; [|reflexivity].
    now rewrite (Hfreed k eq_refl).
Qed.

(** X12. A vector whose capacity field is larger than the block it owns (the
    state copy assignment leaves, with a block of exactly [size] slots)
    cannot take an insertion: [Resize] believes there is room, and the
    element is written behind the end of the block. *)
Theorem Insert_move_past_buffer (h : Heap) this n value :
  slots h (array this) = Some (size this) ->
  size this + 1 < capacity this -> capacity this < SIZE_MODULUS ->
  0 <= n <= size this -> n < size this \/ NDEBUG = true ->
  Insert_move this (ptr_add (begin this) n) value h = UB.
Proof.
  intros Hslots Hroom Hcap Hn Hpos. unfold Insert_move.
  erewrite bind_Ok; cycle 1.
  { destruct Hpos as [Hlt|Hnd]; [apply assert_pos_ok; lia|now apply assert_release]. }
  erewrite bind_Ok; [|now apply distance_ok].
  rewrite wrap_small by lia.
  rewrite (bind_Ok _ _ _ _ _ (Resize_in_place h this (size this + 1) ltac:(lia))).
  unfold slots in Hslots.
  destruct (decide (n = size this)) as [->|Hne].
  - erewrite bind_Ok; cycle 1.
    { unfold std_move_backward. erewrite bind_Ok; cycle 1.
      { apply range_len_ok; [reflexivity|]. unfold set_size. ptr_simpl. cbn [size]. lia. }
      unfold set_size. ptr_simpl. cbn [size array].
      replace (Z.to_nat (0 + (size this + 1) + -1 - (0 + (0 + size this - 0))))
        with 0%nat by lia.
      reflexivity. }
    apply bind_UB. unfold load, set_size. ptr_simpl. cbn [array].
    destruct (raw_ptr (array this)) as [k|]; [|reflexivity].
    destruct (find_block h k) as [b|]; [|reflexivity].
    injection Hslots as Hlen.
    destruct (0 + (0 + size this - 0) <? 0) eqn:E; [reflexivity|].
    rewrite lookup_ge_None_2 by lia. reflexivity.
  - apply bind_UB. unfold std_move_backward. erewrite bind_Ok; cycle 1.
    { apply range_len_ok; [reflexivity|]. unfold set_size. ptr_simpl. cbn [size]. lia. }
    unfold set_size. ptr_simpl. cbn [size array].
    destruct (raw_ptr (array this)) as [k|]; [|injection Hslots as Hs0; lia].
    destruct (find_block h k) as [b|] eqn:Hb; [|discriminate].
    injection Hslots as Hlen.
    replace (Z.to_nat (0 + (size this + 1) + -1 - (0 + (0 + n - 0))))
      with (S (Z.to_nat (size this - n - 1))) by lia.
    cbn [move_backward_n]. unfold ptr_add. cbn [blk off].
    destruct (lookup_lt_is_Some_2 b (Z.to_nat (size this - 1))) as [c Hc]; [lia|].
    apply bind_UB. unfold move_assign.
    erewrite bind_Ok; cycle 1.
    { eapply load_ok; [exact Hb|lia|].
      replace (Z.to_nat (0 + (size this + 1) + -1 + -1)) with (Z.to_nat (size this - 1))
        by lia. exact Hc. }
    apply bind_UB. unfold store. cbn [blk off]. rewrite Hb.
    destruct (0 + (size this + 1) + -1 <? 0) eqn:E1; [reflexivity|].
    destruct (0 + (size this + 1) + -1 <? Z.of_nat (length b)) eqn:E2; [lia|reflexivity].
Qed.

Lemma PushBack_move_in_place (h : Heap) this item :
  NDEBUG = true -> invariant h this -> capacity this * 2 < SIZE_MODULUS ->
  size this + 1 < capacity this ->
  exists h' this',
    PushBack_move this item h = Ok (this', h') /\
    array this' = array this /\ capacity this' = capacity this /\
    size this' = size this + 1 /\
    contents h' this' = contents h this ++ [Some item] /\
    invariant h' this'.
Proof.
  intros Hnd Hinv Hdbl Hroom. pose proof Hinv as (Hsz & Hslots & Hc).
  destruct (PushBack_move_release h this item Hnd Hinv Hdbl)
    as (h' & this' & Hrun & Hs & Hcont & Hinv').
  destruct (Insert_move_run h this (size this) item Hinv ltac:(lia) (or_intror Hnd) Hdbl)
    as (h1 & this2 & a & b2 & Hres & _ & _ & Hrun2).
  rewrite wrap_small, Resize_in_place in Hres by lia. injection Hres as <- <-.
  assert (this' = set_size this (size this + 1)) as Heq.
  { unfold PushBack_move in Hrun.
    change (ptr_add (begin this) (size this)) with (end_ this) in Hrun2.
    rewrite (bind_Ok _ _ _ _ _ Hrun2) in Hrun. unfold ret in Hrun. cbn in Hrun.
    congruence. }
  exists h', this'. split; [exact Hrun|].
  split; [now rewrite Heq|]. split; [now rewrite Heq|].
  split; [exact Hs|]. split; [exact Hcont|exact Hinv'].
Qed.

(** X9. Appending while at least one slot stays free never reallocates: after
    [Reserve(c)], up to [c - size - 1] appended elements go into the buffer
    that is already there, so iterators and the capacity stay as they
    are. *)
Theorem PushBack_all_in_place (items : list Ty) : forall (h : Heap) this,
  NDEBUG = true -> invariant h this ->
  capacity this * 2 < SIZE_MODULUS ->
  size this + Z.of_nat (length items) < capacity this ->
  exists h' this',
    PushBack_all this items h = Ok (this', h') /\
    array this' = array this /\
    capacity this' = capacity this /\
    size this' = size this + Z.of_nat (length items) /\
    contents h' this' = contents h this ++ (Some <$> items).
Proof.
  induction items as [|x items IH]; intros h this Hnd Hinv Hdbl Hroom.
  - exists h, this. cbn [PushBack_all length fmap list_fmap]. unfold ret.
    rewrite app_nil_r. repeat split; simpl; lia.
  - cbn [length] in Hroom.
    destruct (PushBack_move_in_place h this x Hnd Hinv Hdbl)
      as (h1 & this1 & Hrun1 & Ha1 & Hcap1 & Hs1 & Hc1 & Hinv1); [lia|].
    destruct (IH h1 this1 Hnd Hinv1) as (h' & this' & Hrun & Ha & Hcap & Hs & Hc);
      [lia|lia|].
    exists h', this'. cbn [PushBack_all].
    rewrite (bind_Ok _ _ _ _ _ Hrun1).
    split; [exact Hrun|]. split; [congruence|]. split; [congruence|].
    cbn [length]. split; [lia|].
    rewrite Hc, Hc1, <- app_assoc. reflexivity.
Qed.

(** ** PushBack through the copy variant *)

Lemma Insert_copy_run (h : Heap) this n value :
  invariant h this -> 0 <= n <= size this -> n < size this \/ NDEBUG = true ->
  capacity this * 2 < SIZE_MODULUS ->
  (size this + 1 < capacity this ->
     exists h' this',
       Insert_copy this (ptr_add (begin this) n) value h
         = Ok ((ptr_add (begin this') n, this'), h') /\
       size this' = size this + 2 /\
       capacity this' = capacity this /\
       contents h' this' =
         take (Z.to_nat n) (contents h this) ++
         Some value ::
         drop (Z.to_nat n) (take (Z.to_nat (size this + 1)) (buffer h (array this)))) /\
  (capacity this <= size this + 1 ->
     Insert_copy this (ptr_add (begin this) n) value h = UB).
Proof.
  intros Hinv Hn Hpos Hdbl.
  pose proof Hinv as (Hsz & Hslots & Hc).
  assert (Hw : wrap (size this + 1) = size this + 1).
  { apply wrap_small. pose proof SIZE_MODULUS_gt_1. lia. }
  assert (Hassert : assert_ (ptr_le (begin this) (ptr_add (begin this) n) &&
                             ptr_lt (ptr_add (begin this) n) (end_ this)) h = Ok (tt, h)).
  { destruct Hpos as [Hlt|Hnd]; [apply assert_pos_ok; lia|now apply assert_release]. }
  split.
  - intros Hroom.
    destruct (invariant_block _ _ Hinv) as (k & b & Ha & Hb & Hlen); [lia|].
    destruct (std_move_backward_shift_right h k b (Z.to_nat n)
                (Z.to_nat (size this + 1)) Hb)
      as (b' & Hmv & Hl & Hlo & Hmid & Hhi); [lia|lia|].
    set (b2 := <[Z.to_nat n := Some value]> b').
    pose proof (find_block_lt _ _ _ Hb) as Halt.
    assert (Hb' : find_block (<[k := Some b']> h) k = Some b')
      by now apply find_block_insert_eq.
    assert (Hb2 : find_block (<[k := Some b2]> h) k = Some b2)
      by now apply find_block_insert_eq.
    exists (<[k := Some b2]> h), (set_size this (size this + 2)).
    split; [|split; [reflexivity|split; [reflexivity|]]].
    + unfold Insert_copy.
      rewrite (bind_Ok _ _ _ _ _ Hassert).
      rewrite Hw.
      erewrite bind_Ok; [|apply Resize_in_place; lia].
      unfold set_size. ptr_simpl. cbn [size capacity array]. rewrite Ha. cbn [raw_ptr].
      erewrite bind_Ok; cycle 1.
      { replace (0 + n) with (Z.of_nat (Z.to_nat n)) by lia.
        replace (0 + (size this + 1) + 1)
          with (Z.of_nat (Z.to_nat (size this + 1)) + 1) by lia.
        replace (0 + (size this + 1)) with (Z.of_nat (Z.to_nat (size this + 1))) by lia.
        exact Hmv. }
      erewrite bind_Ok; cycle 1.
      { eapply store_ok; [exact Hb'|lia]. }
      unfold ret. rewrite list_insert_insert_eq.
      rewrite wrap_small by lia.
      replace (Z.to_nat (0 + n)) with (Z.to_nat n) by lia.
      now replace (size this + 1 + 1) with (size this + 2) by lia.
    + unfold contents, buffer, set_size. cbn [size array]. rewrite Ha. cbn [raw_ptr].
      rewrite Hb2, Hb. simpl.
      replace (Z.to_nat (size this + 2)) with (S (Z.to_nat (size this + 1))) by lia.
      unfold b2. rewrite (shift_right_take b b') by (auto; lia).
      f_equal. rewrite !take_take. f_equal. lia.
  - intros Hfull.
    destruct (Resize_realloc h this (size this + 1) Hinv) as
      (h' & bd & Hrun & _); [lia|lia|].
    unfold Insert_copy.
    rewrite (bind_Ok _ _ _ _ _ Hassert).
    rewrite Hw, (bind_Ok _ _ _ _ _ Hrun).
    unfold bind, std_move_backward, range_len. ptr_simpl. cbn [array raw_ptr].
    destruct (raw_ptr (array this)) as [k|] eqn:Hk; cbn [blk_eqb andb]; [|reflexivity].
    pose proof (slots_lt _ _ _ _ Hslots Hk) as Hlt.
    destruct (Nat.eqb_spec k (length h)) as [->|Hne]; [lia|]. reflexivity.
Qed.

(** X10. [PushBack(const Type&)] does not append correctly in any build.  With
    assertions off and at least two free slots it returns with the size
    grown by two: the item, followed by whatever the slot behind the old
    end held.  With one free slot or none [Resize] reallocates and the
    saved iterator dangles: undefined behaviour. *)
Theorem PushBack_copy_release (h : Heap) this item :
  NDEBUG = true -> invariant h this -> capacity this * 2 < SIZE_MODULUS ->
  (size this + 1 < capacity this ->
     exists h' this' stale,
       PushBack_copy this item h = Ok (this', h') /\
       size this' = size this + 2 /\
       buffer h (array this) !! Z.to_nat (size this) = Some stale /\
       contents h' this' = contents h this ++ [Some item; stale]) /\
  (capacity this <= size this + 1 -> PushBack_copy this item h = UB).
Proof.
  intros Hnd Hinv Hdbl. pose proof Hinv as (Hsz & Hslots & _).
  destruct (Insert_copy_run h this (size this) item Hinv ltac:(lia) (or_intror Hnd) Hdbl)
    as [Hroom Hfull].
  change (ptr_add (begin this) (size this)) with (end_ this) in Hroom, Hfull.
  split.
  - intros Hlt. destruct (Hroom Hlt) as (h' & this' & Hrun & Hs & _ & Hc).
    destruct (invariant_block _ _ Hinv) as (k & b & Ha & Hb & Hlen); [lia|].
    destruct (lookup_lt_is_Some_2 b (Z.to_nat (size this))) as [stale Hst]; [lia|].
    assert (Hbuf : buffer h (array this) = b).
    { unfold buffer. rewrite Ha. cbn [raw_ptr]. now rewrite Hb. }
    exists h', this', stale. split.
    { unfold PushBack_copy. now rewrite (bind_Ok _ _ _ _ _ Hrun). }
    split; [exact Hs|]. split; [now rewrite Hbuf|].
    rewrite Hc, Hbuf.
    pose proof (contents_length h this Hsz Hslots) as Hl.
    rewrite take_ge by lia. f_equal. f_equal.
    replace (Z.to_nat (size this + 1)) with (S (Z.to_nat (size this))) by lia.
    rewrite (take_S_r _ _ _ Hst), drop_app_length'; [reflexivity|].
    rewrite length_take. lia.
  - intros Hge. unfold PushBack_copy. apply bind_UB. now apply Hfull.
Qed.

(** ** Comparison operators *)

Section CompareProofs.

Context {cmp : ElemCompare}.

Lemma ptr_add_0 p : ptr_add p 0 = p.
Proof. destruct p as [b o]. unfold ptr_add. cbn. f_equal. lia. Qed.

Lemma ptr_add_succ p (j : nat) :
  ptr_add (ptr_add p 1) (Z.of_nat j) = ptr_add p (Z.of_nat (S j)).
Proof. unfold ptr_add. cbn. f_equal. lia. Qed.

Lemma read_ok (h : Heap) a (b : block) z v :
  find_block h a = Some b -> 0 <= z -> b !! Z.to_nat z = Some (Some v) ->
  read (MkPtr (Some a) z) h = Ok (v, h).
Proof.
  intros Hb Hz Hv. unfold read.
  now rewrite (bind_Ok _ _ _ _ _ (load_ok _ _ _ _ _ Hb Hz Hv)).
Qed.

(** Every live element of a vector whose live slots all hold values can be
    read through [begin() + j]. *)
Lemma read_live (h : Heap) this (l : list Ty) :
  invariant h this -> contents h this = Some <$> l ->
  forall (j : nat) x, l !! j = Some x ->
    read (ptr_add (begin this) (Z.of_nat j)) h = Ok (x, h).
Proof.
  intros Hinv Hc j x Hx.
  pose proof Hinv as (Hsz & Hslots & _).
  pose proof (contents_length h this Hsz Hslots) as Hl.
  rewrite Hc, length_fmap in Hl.
  pose proof (lookup_lt_Some _ _ _ Hx) as Hj.
  destruct (invariant_block _ _ Hinv) as (k & b & Ha & Hb & Hlen); [lia|].
  ptr_simpl. rewrite Ha. cbn [raw_ptr].
  eapply read_ok; [exact Hb|lia|].
  rewrite Z.add_0_l, Nat2Z.id.
  assert (Hcj : contents h this !! j = Some (Some x)).
  { rewrite Hc, list_lookup_fmap, Hx. reflexivity. }
  unfold contents, buffer in Hcj. rewrite Ha in Hcj. cbn [raw_ptr] in Hcj.
  rewrite Hb in Hcj. simpl in Hcj.
  now rewrite lookup_take_lt in Hcj by lia.
Qed.

Lemma live_length (h : Heap) this (l : list Ty) :
  invariant h this -> contents h this = Some <$> l ->
  length l = Z.to_nat (size this).
Proof.
  intros (Hsz & Hslots & _) Hc.
  rewrite <- (contents_length h this Hsz Hslots), Hc. now rewrite length_fmap.
Qed.

Lemma live_range_len (h : Heap) this (l : list Ty) :
  invariant h this -> contents h this = Some <$> l ->
  range_len (begin this) (end_ this) h = Ok (length l, h).
Proof.
  intros Hinv Hc. rewrite (live_length h this l Hinv Hc).
  destruct Hinv as (Hsz & _).
  rewrite range_len_ok; [|reflexivity|ptr_simpl; lia].
  ptr_simpl. do 3 f_equal. lia.
Qed.

Lemma equal_n_run (l1 : list Ty) : forall (l2 : list Ty) p1 p2 (h : Heap),
  length l1 = length l2 ->
  (forall (j : nat) x, l1 !! j = Some x -> read (ptr_add p1 (Z.of_nat j)) h = Ok (x, h)) ->
  (forall (j : nat) y, l2 !! j = Some y -> read (ptr_add p2 (Z.of_nat j)) h = Ok (y, h)) ->
  equal_n (length l1) p1 p2 h = Ok (seq_equal l1 l2, h).
Proof.
  induction l1 as [|x l1 IH]; intros [|y l2] p1 p2 h Hlen H1 H2;
    try discriminate; [reflexivity|].
  cbn [length equal_n seq_equal].
  pose proof (H1 0%nat x eq_refl) as Hx. pose proof (H2 0%nat y eq_refl) as Hy.
  cbn in Hx, Hy. rewrite ptr_add_0 in Hx, Hy.
  rewrite (bind_Ok _ _ _ _ _ Hx), (bind_Ok _ _ _ _ _ Hy).
  destruct (Ty_eqb x y); [|reflexivity]. cbn [andb].
  apply IH.
  - simpl in Hlen. lia.
  - intros j x' Hj. rewrite ptr_add_succ. now apply H1.
  - intros j y' Hj. rewrite ptr_add_succ. now apply H2.
Qed.

Lemma lexicographical_compare_n_run (l1 : list Ty) :
  forall (l2 : list Ty) p1 p2 (h : Heap),
  (forall (j : nat) x, l1 !! j = Some x -> read (ptr_add p1 (Z.of_nat j)) h = Ok (x, h)) ->
  (forall (j : nat) y, l2 !! j = Some y -> read (ptr_add p2 (Z.of_nat j)) h = Ok (y, h)) ->
  lexicographical_compare_n (length l1) (length l2) p1 p2 h = Ok (seq_less l1 l2, h).
Proof.
  induction l1 as [|x l1 IH]; intros [|y l2] p1 p2 h H1 H2; try reflexivity.
  cbn [length lexicographical_compare_n seq_less].
  pose proof (H1 0%nat x eq_refl) as Hx. pose proof (H2 0%nat y eq_refl) as Hy.
  cbn in Hx, Hy. rewrite ptr_add_0 in Hx, Hy.
  rewrite (bind_Ok _ _ _ _ _ Hx), (bind_Ok _ _ _ _ _ Hy).
  destruct (Ty_ltb x y); [reflexivity|].
  destruct (Ty_ltb y x); [reflexivity|].
  apply IH.
  - intros j x' Hj. rewrite ptr_add_succ. now apply H1.
  - intros j y' Hj. rewrite ptr_add_succ. now apply H2.
Qed.

Lemma seq_equal_length (l1 : list Ty) : forall l2 : list Ty,
  seq_equal l1 l2 = true -> length l1 = length l2.
Proof.
  induction l1 as [|x l1 IH]; intros [|y l2] H; try discriminate; [reflexivity|].
  cbn in H. apply andb_true_iff in H as [_ H]. cbn. f_equal. now apply IH.
Qed.

Lemma seq_equal_eq (l1 : list Ty) : forall l2 : list Ty,
  eq_decides -> (seq_equal l1 l2 = true <-> l1 = l2).
Proof.
  induction l1 as [|x l1 IH]; intros [|y l2] Hd; cbn; try (split; congruence).
  rewrite andb_true_iff, (Hd x y), (IH l2 Hd). split.
  - intros [-> ->]. reflexivity.
  - intros [= -> ->]. now split.
Qed.

Lemma seq_less_irrefl (l : list Ty) : lt_irreflexive -> seq_less l l = false.
Proof.
  intros Hi. induction l as [|x l IH]; [reflexivity|].
  cbn. now rewrite (Hi x).
Qed.

Lemma seq_less_prefix (l ext : list Ty) :
  lt_irreflexive -> ext <> [] -> seq_less l (l ++ ext) = true.
Proof.
  intros Hi Hne. induction l as [|x l IH]; cbn.
  - destruct ext; [congruence|reflexivity].
  - now rewrite (Hi x).
Qed.

Lemma seq_less_longer (l ext : list Ty) :
  lt_irreflexive -> seq_less (l ++ ext) l = false.
Proof.
  intros Hi. induction l as [|x l IH]; cbn.
  - destruct ext; reflexivity.
  - now rewrite (Hi x).
Qed.

Lemma seq_less_first_difference (p s1 s2 : list Ty) x y :
  lt_irreflexive -> Ty_ltb x y = true ->
  seq_less (p ++ x :: s1) (p ++ y :: s2) = true.
Proof.
  intros Hi Hxy. induction p as [|z p IH]; cbn.
  - now rewrite Hxy.
  - now rewrite (Hi z).
Qed.

Lemma seq_greater (l1 : list Ty) : forall l2 : list Ty,
  eq_decides -> lt_strict_total ->
  negb (seq_equal l1 l2 || seq_less l1 l2) = seq_less l2 l1.
Proof.
  intros l2 Hd (Hi & Has & Hco). revert l2.
  induction l1 as [|x l1 IH]; intros [|y l2]; try reflexivity.
  cbn [seq_equal seq_less].
  destruct (Ty_ltb x y) eqn:Hxy.
  - rewrite (Has x y Hxy), orb_true_r. reflexivity.
  - destruct (Ty_ltb y x) eqn:Hyx.
    + assert (Hne : Ty_eqb x y = false).
      { destruct (Ty_eqb x y) eqn:He; [|reflexivity].
        apply Hd in He. subst. rewrite (Hi y) in Hyx. discriminate. }
      rewrite Hne. reflexivity.
    + assert (He : Ty_eqb x y = true).
      { apply Hd. destruct (Ty_eqb x y) eqn:He; [now apply Hd|].
        exfalso. assert (Hne : x <> y).
        { intros ->. assert (Ty_eqb y y = true) by now apply Hd. congruence. }
        destruct (Hco x y Hne); congruence. }
      rewrite He. cbn [andb]. apply IH.
Qed.

Lemma seq_not_less (l1 : list Ty) : forall l2 : list Ty,
  eq_decides -> lt_strict_total ->
  negb (seq_less l1 l2) = seq_equal l2 l1 || seq_less l2 l1.
Proof.
  intros l2 Hd (Hi & Has & Hco). revert l2.
  induction l1 as [|x l1 IH]; intros [|y l2]; try reflexivity.
  cbn [seq_equal seq_less].
  destruct (Ty_ltb x y) eqn:Hxy.
  - rewrite (Has x y Hxy).
    assert (Hne : Ty_eqb y x = false).
    { destruct (Ty_eqb y x) eqn:He; [|reflexivity].
      apply Hd in He. subst. rewrite (Hi x) in Hxy. discriminate. }
    rewrite Hne. reflexivity.
  - destruct (Ty_ltb y x) eqn:Hyx.
    + rewrite orb_true_r. reflexivity.
    + assert (He : Ty_eqb y x = true).
      { destruct (Ty_eqb y x) eqn:He; [reflexivity|].
        exfalso. assert (Hne : x <> y).
        { intros ->. assert (Ty_eqb y y = true) by now apply Hd. congruence. }
        destruct (Hco x y Hne); congruence. }
      rewrite He. cbn [andb]. apply IH.
Qed.

(** What the operators return for two vectors whose live slots hold the
    value sequences [l1] and [l2]. *)
Lemma operator_eq_run (h : Heap) lhs rhs (l1 l2 : list Ty) :
  invariant h lhs -> invariant h rhs ->
  contents h lhs = Some <$> l1 -> contents h rhs = Some <$> l2 ->
  operator_eq lhs rhs h = Ok (seq_equal l1 l2, h).
Proof.
  intros Hi1 Hi2 Hc1 Hc2. unfold operator_eq, std_equal.
  rewrite (bind_Ok _ _ _ _ _ (live_range_len h lhs l1 Hi1 Hc1)).
  rewrite (bind_Ok _ _ _ _ _ (live_range_len h rhs l2 Hi2 Hc2)).
  destruct (Nat.eqb_spec (length l1) (length l2)) as [Hl|Hl].
  - apply equal_n_run; [exact Hl| |]; now apply read_live.
  - unfold ret. destruct (seq_equal l1 l2) eqn:He; [|reflexivity].
    apply seq_equal_length in He. contradiction.
Qed.

Lemma operator_lt_run (h : Heap) lhs rhs (l1 l2 : list Ty) :
  invariant h lhs -> invariant h rhs ->
  contents h lhs = Some <$> l1 -> contents h rhs = Some <$> l2 ->
  operator_lt lhs rhs h = Ok (seq_less l1 l2, h).
Proof.
  intros Hi1 Hi2 Hc1 Hc2. unfold operator_lt, std_lexicographical_compare.
  rewrite (bind_Ok _ _ _ _ _ (live_range_len h lhs l1 Hi1 Hc1)).
  rewrite (bind_Ok _ _ _ _ _ (live_range_len h rhs l2 Hi2 Hc2)).
  apply lexicographical_compare_n_run; now apply read_live.
Qed.

Lemma operator_le_run (h : Heap) lhs rhs (l1 l2 : list Ty) :
  invariant h lhs -> invariant h rhs ->
  contents h lhs = Some <$> l1 -> contents h rhs = Some <$> l2 ->
  operator_le lhs rhs h = Ok (seq_equal l1 l2 || seq_less l1 l2, h).
Proof.
  intros Hi1 Hi2 Hc1 Hc2. unfold operator_le.
  rewrite (bind_Ok _ _ _ _ _ (operator_eq_run h lhs rhs l1 l2 Hi1 Hi2 Hc1 Hc2)).
  destruct (seq_equal l1 l2); [reflexivity|].
  now apply operator_lt_run.
Qed.

(** X20. [operator==] reads only the live elements and leaves the heap alone: it
    answers whether the two vectors have the same number of elements and
    equal elements at every index, whatever their capacities.  When the
    element's [operator==] is equality, that is equality of the sequences;
    [operator!=] answers the opposite. *)
Theorem operator_eq_spec (h : Heap) lhs rhs (l1 l2 : list Ty) :
  invariant h lhs -> invariant h rhs ->
  contents h lhs = Some <$> l1 -> contents h rhs = Some <$> l2 ->
  exists b,
    operator_eq lhs rhs h = Ok (b, h) /\
    operator_ne lhs rhs h = Ok (negb b, h) /\
    (b = true ->
       length l1 = length l2 /\
       forall j x y, l1 !! j = Some x -> l2 !! j = Some y -> Ty_eqb x y = true) /\
    (length l1 <> length l2 -> b = false) /\
    (eq_decides -> (b = true <-> l1 = l2)).
Proof.
  intros Hi1 Hi2 Hc1 Hc2.
  pose proof (operator_eq_run h lhs rhs l1 l2 Hi1 Hi2 Hc1 Hc2) as Hrun.
  exists (seq_equal l1 l2). split; [exact Hrun|]. split.
  { unfold operator_ne. now rewrite (bind_Ok _ _ _ _ _ Hrun). }
  split; [|split].
  - intros He. split; [now apply seq_equal_length|].
    clear Hrun Hc1 Hc2. revert l2 He.
    induction l1 as [|a l1 IH]; intros [|b l2] He j x y Hx Hy; try discriminate.
    cbn in He. apply andb_true_iff in He as [Hab He].
    destruct j as [|j]; cbn in Hx, Hy.
    + congruence.
    + eapply IH; eauto.
  - intros Hne. destruct (seq_equal l1 l2) eqn:He; [|reflexivity].
    apply seq_equal_length in He. contradiction.
  - intros Hd. now apply seq_equal_eq.
Qed.

(** X21. [operator<] is dictionary order on the live elements: a vector is less
    than any proper extension of itself, the first differing element
    decides otherwise, and no vector is less than itself or than one of its
    prefixes (for an irreflexive element order). *)
Theorem operator_lt_spec (h : Heap) lhs rhs (l1 l2 : list Ty) :
  invariant h lhs -> invariant h rhs ->
  contents h lhs = Some <$> l1 -> contents h rhs = Some <$> l2 ->
  lt_irreflexive ->
  exists b,
    operator_lt lhs rhs h = Ok (b, h) /\
    (forall ext, ext <> [] -> l2 = l1 ++ ext -> b = true) /\
    (forall ext, l1 = l2 ++ ext -> b = false) /\
    (forall p x y s1 s2,
       l1 = p ++ x :: s1 -> l2 = p ++ y :: s2 ->
       (Ty_ltb x y = true -> b = true) /\
       (Ty_ltb x y = false -> Ty_ltb y x = true -> b = false)).
Proof.
  intros Hi1 Hi2 Hc1 Hc2 Hirr.
  exists (seq_less l1 l2).
  split; [now apply operator_lt_run|]. split; [|split].
  - intros ext Hne ->. now apply seq_less_prefix.
  - intros ext ->. now apply seq_less_longer.
  - intros p x y s1 s2 -> ->. split.
    + intros Hxy. now apply seq_less_first_difference.
    + intros Hxy Hyx. clear Hc1 Hc2. induction p as [|z p IH]; cbn.
      * now rewrite Hxy, Hyx.
      * now rewrite (Hirr z).
Qed.

(** X22. For elements whose [operator==] is equality and whose [operator<] is a
    strict total order, the six operators agree with each other:
    [a > b] is [b < a], [a >= b] is [b <= a], [a <= b] is [!(b < a)], and
    exactly one of [a < b], [a == b], [a > b] holds. *)
Theorem operators_consistent (h : Heap) lhs rhs (l1 l2 : list Ty) :
  invariant h lhs -> invariant h rhs ->
  contents h lhs = Some <$> l1 -> contents h rhs = Some <$> l2 ->
  eq_decides -> lt_strict_total ->
  exists lt eq gt,
    operator_lt lhs rhs h = Ok (lt, h) /\
    operator_eq lhs rhs h = Ok (eq, h) /\
    operator_gt lhs rhs h = Ok (gt, h) /\
    operator_lt rhs lhs h = Ok (gt, h) /\
    operator_le lhs rhs h = Ok (negb gt, h) /\
    operator_ge lhs rhs h = Ok (negb lt, h) /\
    operator_le rhs lhs h = Ok (negb lt, h) /\
    (lt = true /\ eq = false /\ gt = false \/
     lt = false /\ eq = true /\ gt = false \/
     lt = false /\ eq = false /\ gt = true).
Proof.
  intros Hi1 Hi2 Hc1 Hc2 Hd Hto.
  pose proof (operator_lt_run h lhs rhs l1 l2 Hi1 Hi2 Hc1 Hc2) as Hlt.
  pose proof (operator_eq_run h lhs rhs l1 l2 Hi1 Hi2 Hc1 Hc2) as Heq.
  pose proof (operator_le_run h lhs rhs l1 l2 Hi1 Hi2 Hc1 Hc2) as Hle.
  pose proof (operator_lt_run h rhs lhs l2 l1 Hi2 Hi1 Hc2 Hc1) as Hlt'.
  pose proof (operator_le_run h rhs lhs l2 l1 Hi2 Hi1 Hc2 Hc1) as Hle'.
  pose proof (seq_greater l1 l2 Hd Hto) as Hg.
  pose proof (seq_not_less l1 l2 Hd Hto) as Hn.
  exists (seq_less l1 l2), (seq_equal l1 l2), (seq_less l2 l1).
  split; [exact Hlt|]. split; [exact Heq|]. split.
  { unfold operator_gt. rewrite (bind_Ok _ _ _ _ _ Hle). unfold ret. now rewrite Hg. }
  split; [exact Hlt'|]. split.
  { rewrite Hle, <- Hg. now rewrite negb_involutive. }
  split.
  { unfold operator_ge. now rewrite (bind_Ok _ _ _ _ _ Hlt). }
  split.
  { rewrite Hle', <- Hn. reflexivity. }
  destruct (seq_less l1 l2) eqn:E1, (seq_equal l1 l2) eqn:E2, (seq_less l2 l1) eqn:E3;
    cbn in Hg; try discriminate; auto.
  - exfalso. apply (seq_equal_eq l1 l2 Hd) in E2. subst.
    destruct Hto as (Hirr & _). rewrite (seq_less_irrefl l2 Hirr) in E1. discriminate.
Qed.

(** X23. A copy compares equal to its source, whatever the spare capacity of the
    source (for elements equal to themselves). *)
Theorem SimpleVector_copy_equal (h : Heap) other (l : list Ty) :
  invariant h other -> contents h other = Some <$> l ->
  (forall x, Ty_eqb x x = true) ->
  exists h' this,
    SimpleVector_copy other h = Ok (this, h') /\
    operator_eq this other h' = Ok (true, h') /\
    operator_eq other this h' = Ok (true, h').
Proof.
  intros Hinv Hc Hrefl.
  destruct (SimpleVector_copy_frame h other Hinv)
    as (h' & this & Hrun & _ & _ & Hc1 & Hc2 & Hi1 & Hi2 & _).
  exists h', this. split; [exact Hrun|].
  rewrite Hc in Hc1, Hc2.
  assert (Hself : seq_equal l l = true).
  { clear -Hrefl. induction l as [|x l IH]; [reflexivity|].
    cbn. now rewrite Hrefl, IH. }
  rewrite (operator_eq_run h' this other l l Hi1 Hi2 Hc1 Hc2).
  rewrite (operator_eq_run h' other this l l Hi2 Hi1 Hc2 Hc1).
  now rewrite Hself.
Qed.

End CompareProofs.

End Proofs.

(** ** The theorems at concrete vectors *)

Ltac concrete :=
  unfold invariant, is_size_t, SIZE_MODULUS; cbn;
  repeat split; try lia; try reflexivity.

(** [Insert(begin(), 9)] through the copy variant, on [{1}] with capacity 3
    (the buffer still holds 2 and 3): the result has size 3, not 2.  On the
    full vector [{1, 2, 3}] the call is undefined. *)
Lemma Insert_copy_spec_witness :
  invariant (elt := int_debug) heap_123 vec_1 /\
  0 <= 0 < size vec_1 /\
  capacity vec_1 * 2 < SIZE_MODULUS /\
  (exists h' this',
     Insert_copy (elt := int_debug) vec_1 (ptr_add (begin vec_1) 0) 9 heap_123
       = Ok ((ptr_add (begin this') 0, this'), h') /\
     size this' = 3 /\
     contents (elt := int_debug) h' this' = [Some 9; Some 1; Some 2]) /\
  Insert_copy (elt := int_debug) vec_123 (ptr_add (begin vec_123) 0) 9 heap_123 = UB.
Proof.
  assert (Hinv : invariant (elt := int_debug) heap_123 vec_1) by concrete.
  assert (Hinv' : invariant (elt := int_debug) heap_123 vec_123) by concrete.
  assert (Hn : 0 <= 0 < size vec_1) by concrete.
  assert (Hn' : 0 <= 0 < size vec_123) by concrete.
  assert (Hd : capacity vec_1 * 2 < SIZE_MODULUS) by concrete.
  split; [exact Hinv|]. split; [exact Hn|]. split; [exact Hd|]. split.
  - destruct (Insert_copy_spec (elt := int_debug) heap_123 vec_1 0 9 Hinv Hn Hd)
      as [Hroom _].
    destruct Hroom as (h' & this' & Hrun & Hs & Hc); [concrete|].
    exists h', this'. split; [exact Hrun|]. split; [exact Hs|]. exact Hc.
  - destruct (Insert_copy_spec (elt := int_debug) heap_123 vec_123 0 9 Hinv' Hn' Hd)
      as [_ Hfull].
    apply Hfull. concrete.
Defined.

(** [v = SimpleVector(Reserve(2))] assigned to an empty vector: the target
    reports capacity 2 and owns no slot at all. *)
Lemma assign_spec_witness :
  invariant (elt := int_debug) heap_raw2 SimpleVector_default /\
  invariant (elt := int_debug) heap_raw2 vec_reserved2 /\
  exists h' this',
    assign (elt := int_debug) SimpleVector_default (Some vec_reserved2) heap_raw2
      = Ok (this', h') /\
    capacity this' = 2 /\
    slots (elt := int_debug) h' (array this') = Some 0 /\
    ~ invariant h' this'.
Proof.
  assert (Hinv : invariant (elt := int_debug) heap_raw2 SimpleVector_default)
    by concrete.
  assert (Hrinv : invariant (elt := int_debug) heap_raw2 vec_reserved2) by concrete.
  split; [exact Hinv|]. split; [exact Hrinv|].
  destruct (assign_spec (elt := int_debug) heap_raw2 SimpleVector_default vec_reserved2
              Hinv Hrinv) as (h' & this' & Hrun & _ & Hc & Hs & _ & Hbad).
  exists h', this'. split; [exact Hrun|]. split; [exact Hc|]. split; [exact Hs|].
  apply Hbad. concrete.
Defined.

(** [PushBack(5)] on the empty vector in a build with assertions. *)
Lemma PushBack_spec_witness :
  NDEBUG (ElemType := int_debug) = false /\
  PushBack_copy (elt := int_debug) SimpleVector_default 5 [] = AssertFail /\
  PushBack_move (elt := int_debug) SimpleVector_default 5 [] = AssertFail.
Proof.
  split; [reflexivity|].
  apply (PushBack_spec (elt := int_debug) [] SimpleVector_default 5). reflexivity.
Defined.

(** [Resize(5)] on [{1}] with capacity 3 reallocates to capacity 6. *)
Lemma Resize_spec_witness :
  invariant (elt := int_debug) heap_123 vec_1 /\
  is_size_t 5 /\
  capacity vec_1 * 2 < SIZE_MODULUS /\
  exists h' this',
    Resize (elt := int_debug) vec_1 5 heap_123 = Ok (this', h') /\
    size this' = 5 /\
    capacity this' = 6 /\
    take 1 (contents (elt := int_debug) h' this') = [Some 1].
Proof.
  assert (Hinv : invariant (elt := int_debug) heap_123 vec_1) by concrete.
  assert (Hn : is_size_t 5) by concrete.
  assert (Hd : capacity vec_1 * 2 < SIZE_MODULUS) by concrete.
  split; [exact Hinv|]. split; [exact Hn|]. split; [exact Hd|].
  destruct (Resize_spec (elt := int_debug) heap_123 vec_1 5 Hinv Hn Hd)
    as (h' & this' & Hrun & Hs & _ & _ & _ & Hgrow).
  destruct Hgrow as (Hc & _ & _ & Ht); [concrete|concrete|].
  exists h', this'. split; [exact Hrun|]. split; [exact Hs|]. split; [exact Hc|exact Ht].
Defined.

(** [Resize(2)] on [{1}] with capacity 3, whose buffer still holds 2 at
    index 1: the newly live element reads 2, not the default 0. *)
Lemma Resize_in_place_keeps_slots_witness :
  0 <= size vec_1 < 2 /\ 2 < capacity vec_1 /\ size vec_1 <= 1 < 2 /\
  exists this',
    Resize (elt := int_debug) vec_1 2 heap_123 = Ok (this', heap_123) /\
    size this' = 2 /\
    contents (elt := int_debug) heap_123 this' !! 1%nat = Some (Some 2) /\
    Some 2 <> Some (Ty_default (ElemType := int_debug)).
Proof.
  assert (H1 : 0 <= size vec_1 < 2) by concrete.
  assert (H2 : 2 < capacity vec_1) by concrete.
  assert (H3 : size vec_1 <= 1 < 2) by concrete.
  split; [exact H1|]. split; [exact H2|]. split; [exact H3|].
  destruct (Resize_in_place_keeps_slots (elt := int_debug) heap_123 vec_1 2 1 H1 H2 H3)
    as (this' & Hrun & Hs & Hc).
  exists this'. split; [exact Hrun|]. split; [exact Hs|]. split; [exact Hc|].
  discriminate.
Defined.

(** [Reserve(5)] on [{1, 2}] with capacity 3. *)
Lemma Reserve_spec_witness :
  invariant (elt := int_debug) heap_123 vec_12 /\
  5 < SIZE_MODULUS /\
  exists h' this',
    Reserve (elt := int_debug) vec_12 (Reserve_proxy 5) heap_123 = Ok (this', h') /\
    capacity this' = 5 /\
    size this' = 2 /\
    contents (elt := int_debug) h' this' = [Some 1; Some 2].
Proof.
  assert (Hinv : invariant (elt := int_debug) heap_123 vec_12) by concrete.
  assert (Hc : 5 < SIZE_MODULUS) by concrete.
  split; [exact Hinv|]. split; [exact Hc|].
  destruct (Reserve_spec (elt := int_debug) heap_123 vec_12 5 Hinv Hc)
    as (h' & this' & Hrun & _ & Hcap & Hs & Hcont & _).
  exists h', this'. split; [exact Hrun|]. split; [apply Hcap; concrete|].
  split; [exact Hs|exact Hcont].
Defined.

(** [At(1)] and [At(2)] on [{1, 2}]. *)
Lemma At_spec_witness :
  1 < size vec_12 /\
  size vec_12 <= 2 /\
  At (elt := int_debug) vec_12 1 heap_123 = index (elt := int_debug) vec_12 1 heap_123 /\
  At (elt := int_debug) vec_12 2 heap_123 = Throw out_of_range.
Proof.
  assert (H1 : 1 < size vec_12) by concrete.
  assert (H2 : size vec_12 <= 2) by concrete.
  split; [exact H1|]. split; [exact H2|]. split.
  - apply (At_spec (elt := int_debug) heap_123 vec_12 1). exact H1.
  - apply (At_spec (elt := int_debug) heap_123 vec_12 2). exact H2.
Defined.

(** [Erase(begin() + 1)] on [{1, 2, 3}]. *)
Lemma Erase_spec_witness :
  invariant (elt := int_debug) heap_123 vec_123 /\
  0 <= 1 < size vec_123 /\
  exists h' this',
    Erase (elt := int_debug) vec_123 (ptr_add (begin vec_123) 1) heap_123
      = Ok ((ptr_add (begin this') 1, this'), h') /\
    size this' = 2 /\
    contents (elt := int_debug) h' this' = [Some 1; Some 3].
Proof.
  assert (Hinv : invariant (elt := int_debug) heap_123 vec_123) by concrete.
  assert (Hn : 0 <= 1 < size vec_123) by concrete.
  split; [exact Hinv|]. split; [exact Hn|].
  destruct (Erase_spec (elt := int_debug) heap_123 vec_123 1 Hinv Hn)
    as (h' & this' & Hrun & Hs & _ & _ & Hc & _).
  exists h', this'. split; [exact Hrun|]. split; [exact Hs|exact Hc].
Defined.

(** [PopBack] on [{1, 2}]. *)
Lemma PopBack_spec_witness :
  is_size_t (size vec_12) /\
  size (PopBack vec_12) = 1 /\
  capacity (PopBack vec_12) = 3 /\
  contents (elt := int_debug) heap_123 (PopBack vec_12) = [Some 1].
Proof.
  assert (Hs : is_size_t (size vec_12)) by concrete.
  split; [exact Hs|].
  destruct (PopBack_spec (elt := int_debug) heap_123 vec_12 Hs) as [_ Hne].
  destruct Hne as (H1 & H2 & _ & H4); [discriminate|].
  split; [exact H1|]. split; [exact H2|exact H4].
Defined.

(** ** The concrete vectors are reachable through the public interface *)

Example vec_123_built :
  SimpleVector_init (elt := int_debug) [1; 2; 3] [] = Ok (vec_123, heap_123).
Proof. reflexivity. Qed.

Example vec_12_built : PopBack vec_123 = vec_12.
Proof. reflexivity. Qed.

Example vec_1_built : PopBack vec_12 = vec_1.
Proof. reflexivity. Qed.

Example vec_reserved2_built :
  SimpleVector_reserved (elt := int_debug) (Reserve_proxy 2) []
    = Ok (vec_reserved2, heap_raw2).
Proof. reflexivity. Qed.

(** The scenario of the spec runs as the spec says in a release build. *)
Example scenario_insert_run :
  exists this h,
    scenario_insert [] = Ok (this, h) /\
    contents (elt := int_release) h this = [Some 5; Some 7; Some 6] /\
    size this = 3.
Proof. eexists _, _. split; [reflexivity|]. split; reflexivity. Qed.

Example scenario_erase_run :
  exists this h,
    scenario_erase [] = Ok (this, h) /\
    contents (elt := int_release) h this = [Some 7; Some 6] /\
    size this = 2 /\
    size (Clear this) = 0 /\ capacity (Clear this) = capacity this /\
    2 <= capacity this.
Proof.
  eexists _, _. split; [reflexivity|]. do 4 (split; [reflexivity|]).
  vm_compute. congruence.
Qed.

(** ** The further theorems at concrete vectors *)

Lemma int_eq_decides : eq_decides (cmp := int_compare_debug).
Proof. intros x y. apply Z.eqb_eq. Qed.

Lemma int_lt_irreflexive : lt_irreflexive (cmp := int_compare_debug).
Proof. intros x. apply Z.ltb_irrefl. Qed.

Lemma int_lt_strict_total : lt_strict_total (cmp := int_compare_debug).
Proof.
  split; [exact int_lt_irreflexive|]. split.
  - intros x y H. cbn in *. apply Z.ltb_lt in H. apply Z.ltb_ge. lia.
  - intros x y H. cbn in *. rewrite !Z.ltb_lt. lia.
Qed.

Lemma SimpleVector_sized_filled_witness :
  is_size_t 2 /\
  (exists h' this,
     SimpleVector_sized (elt := int_debug) 2 [] = Ok (this, h') /\
     contents (elt := int_debug) h' this = [Some 0; Some 0]) /\
  (exists h' this,
     SimpleVector_filled (elt := int_debug) 2 7 [] = Ok (this, h') /\
     contents (elt := int_debug) h' this = [Some 7; Some 7]).
Proof.
  assert (Hn : is_size_t 2) by concrete.
  split; [exact Hn|].
  destruct (SimpleVector_sized_filled (elt := int_debug) [] 2 7 Hn)
    as [(h1 & t1 & R1 & _ & _ & C1 & _) (h2 & t2 & R2 & _ & _ & C2 & _)].
  split; [exists h1, t1|exists h2, t2]; split; assumption.
Defined.


Lemma SimpleVector_init_spec_witness :
  Z.of_nat (length [1; 2; 3]) < SIZE_MODULUS /\
  exists h' this,
    SimpleVector_init (elt := int_debug) [1; 2; 3] [] = Ok (this, h') /\
    size this = 3 /\ capacity this = 3 /\
    contents (elt := int_debug) h' this = [Some 1; Some 2; Some 3].
Proof.
  assert (Hl : Z.of_nat (length [1; 2; 3]) < SIZE_MODULUS) by concrete.
  split; [exact Hl|].
  destruct (SimpleVector_init_spec (elt := int_debug) [] [1; 2; 3] Hl)
    as (h' & this & Hrun & Hs & Hc & Hcont & _).
  exists h', this. repeat split; assumption.
Defined.

(** Copying [{1, 2}] with capacity 3 gives capacity 2. *)
Lemma SimpleVector_copy_independent_witness :
  invariant (elt := int_debug) heap_123 vec_12 /\
  exists h' this h'',
    SimpleVector_copy (elt := int_debug) vec_12 heap_123 = Ok (this, h') /\
    capacity this = 2 /\
    contents (elt := int_debug) h' this = [Some 1; Some 2] /\
    SimpleVector_destroy (elt := int_debug) this h' = Ok (tt, h'') /\
    contents (elt := int_debug) h'' vec_12 = [Some 1; Some 2].
Proof.
  assert (Hinv : invariant (elt := int_debug) heap_123 vec_12) by concrete.
  split; [exact Hinv|].
  destruct (SimpleVector_copy_independent (elt := int_debug) heap_123 vec_12 Hinv)
    as (h' & this & h'' & Hrun & _ & Hc & Hcont & _ & _ & _ & _ & Hd & Hkeep & _).
  exists h', this, h''. repeat split; assumption.
Defined.



(** Inserting into [{1, 2}] with capacity 3 reallocates to capacity 6
    although one slot is free. *)
Lemma Insert_move_growth_witness :
  invariant (elt := int_debug) heap_123 vec_12 /\
  0 <= 0 <= size vec_12 /\
  (0 < size vec_12 \/ NDEBUG (ElemType := int_debug) = true) /\
  capacity vec_12 * 2 < SIZE_MODULUS /\
  exists h' this',
    Insert_move (elt := int_debug) vec_12 (ptr_add (begin vec_12) 0) 9 heap_123
      = Ok ((ptr_add (begin this') 0, this'), h') /\
    capacity this' = 6 /\
    raw_ptr (array this') = Some 1%nat /\
    find_block (elt := int_debug) h' 0 = None.
Proof.
  assert (Hinv : invariant (elt := int_debug) heap_123 vec_12) by concrete.
  assert (Hn : 0 <= 0 <= size vec_12) by concrete.
  assert (Hp : 0 < size vec_12 \/ NDEBUG (ElemType := int_debug) = true)
    by (left; concrete).
  assert (Hd : capacity vec_12 * 2 < SIZE_MODULUS) by concrete.
  split; [exact Hinv|]. split; [exact Hn|]. split; [exact Hp|]. split; [exact Hd|].
  destruct (Insert_move_growth (elt := int_debug) heap_123 vec_12 0 9 Hinv Hn Hp Hd)
    as (h' & this' & Hrun & _ & Hfull).
  destruct Hfull as (Hc & Ha & Hold); [concrete|].
  exists h', this'. split; [exact Hrun|]. split; [exact Hc|]. split; [exact Ha|].
  apply (Hold 0%nat). reflexivity.
Defined.

(** Three appends to the empty vector in a build with [NDEBUG]. *)
Lemma PushBack_all_spec_witness :
  NDEBUG (ElemType := int_release) = true /\
  invariant (elt := int_release) [] SimpleVector_default /\
  capacity SimpleVector_default * 2 < SIZE_MODULUS /\
  4 * (size SimpleVector_default + Z.of_nat (length [5; 6; 7])) < SIZE_MODULUS /\
  exists h' this',
    PushBack_all (elt := int_release) SimpleVector_default [5; 6; 7] [] = Ok (this', h') /\
    size this' = 3 /\
    contents (elt := int_release) h' this' = [Some 5; Some 6; Some 7] /\
    3 <= capacity this' <= 6.
Proof.
  assert (Hnd : NDEBUG (ElemType := int_release) = true) by reflexivity.
  assert (Hinv : invariant (elt := int_release) [] SimpleVector_default) by concrete.
  assert (Hd : capacity SimpleVector_default * 2 < SIZE_MODULUS) by concrete.
  assert (Hb : 4 * (size SimpleVector_default + Z.of_nat (length [5; 6; 7]))
               < SIZE_MODULUS) by concrete.
  split; [exact Hnd|]. split; [exact Hinv|]. split; [exact Hd|]. split; [exact Hb|].
  destruct (PushBack_all_spec (elt := int_release) [5; 6; 7] [] SimpleVector_default
              Hnd Hinv Hd Hb) as (h' & this' & Hrun & Hs & Hc & _ & Hlo & Hhi).
  exists h', this'. split; [exact Hrun|]. split; [exact Hs|]. split; [exact Hc|].
  rewrite Hs in Hlo, Hhi. cbn in Hlo, Hhi. lia.
Defined.

Lemma Insert_move_Erase_roundtrip_witness :
  invariant (elt := int_debug) heap_123 vec_12 /\
  0 <= 1 <= size vec_12 /\
  (1 < size vec_12 \/ NDEBUG (ElemType := int_debug) = true) /\
  capacity vec_12 * 2 < SIZE_MODULUS /\
  exists h1 this1 p h2 this2 q,
    Insert_move (elt := int_debug) vec_12 (ptr_add (begin vec_12) 1) 9 heap_123
      = Ok ((p, this1), h1) /\
    Erase (elt := int_debug) this1 p h1 = Ok ((q, this2), h2) /\
    size this2 = 2 /\
    contents (elt := int_debug) h2 this2 = [Some 1; Some 2].
Proof.
  assert (Hinv : invariant (elt := int_debug) heap_123 vec_12) by concrete.
  assert (Hn : 0 <= 1 <= size vec_12) by concrete.
  assert (Hp : 1 < size vec_12 \/ NDEBUG (ElemType := int_debug) = true)
    by (left; concrete).
  assert (Hd : capacity vec_12 * 2 < SIZE_MODULUS) by concrete.
  split; [exact Hinv|]. split; [exact Hn|]. split; [exact Hp|]. split; [exact Hd|].
  destruct (Insert_move_Erase_roundtrip (elt := int_debug) heap_123 vec_12 1 9
              Hinv Hn Hp Hd)
    as (h1 & this1 & p & h2 & this2 & q & Hr1 & Hr2 & Hs & Hc & _).
  exists h1, this1, p, h2, this2, q. repeat split; assumption.
Defined.


Lemma At_dereferenceable_witness :
  invariant (elt := int_debug) heap_123 vec_12 /\
  0 <= 1 /\
  At (elt := int_debug) vec_12 1 heap_123 = Ok (MkPtr (Some 0%nat) 1, heap_123) /\
  load (elt := int_debug) (MkPtr (Some 0%nat) 1) heap_123 = Ok (Some 2, heap_123).
Proof.
  assert (Hinv : invariant (elt := int_debug) heap_123 vec_12) by concrete.
  assert (Hi : 0 <= 1) by lia.
  assert (Hrun : At (elt := int_debug) vec_12 1 heap_123
                 = Ok (MkPtr (Some 0%nat) 1, heap_123)) by reflexivity.
  split; [exact Hinv|]. split; [exact Hi|]. split; [exact Hrun|].
  destruct (At_dereferenceable (elt := int_debug) heap_123 vec_12 1 _ _ Hinv Hi Hrun)
    as (_ & c & Hload & Hc).
  assert (Heq : c = Some 2) by (vm_compute in Hc; congruence).
  rewrite Heq in Hload. exact Hload.
Defined.

(** The index 5 on [{1, 2, 3}] in a build with [NDEBUG]. *)
Lemma index_release_unchecked_witness :
  NDEBUG (ElemType := int_release) = true /\
  invariant (elt := int_release) heap_123 vec_123 /\
  capacity vec_123 <= 5 /\
  index (elt := int_release) vec_123 5 heap_123 = Ok (MkPtr (Some 0%nat) 5, heap_123) /\
  load (elt := int_release) (MkPtr (Some 0%nat) 5) heap_123 = UB.
Proof.
  assert (Hnd : NDEBUG (ElemType := int_release) = true) by reflexivity.
  assert (Hinv : invariant (elt := int_release) heap_123 vec_123) by concrete.
  assert (Hi : capacity vec_123 <= 5) by concrete.
  split; [exact Hnd|]. split; [exact Hinv|]. split; [exact Hi|].
  destruct (index_release_unchecked (elt := int_release) heap_123 vec_123 5 Hnd)
    as [Hrun Hub].
  split; [exact Hrun|]. exact (Hub Hinv Hi).
Defined.

Lemma SimpleVector_move_destroy_both_witness :
  invariant (elt := int_debug) heap_123 vec_123 /\
  exists h1,
    SimpleVector_destroy (elt := int_debug) (fst (SimpleVector_move vec_123)) heap_123
      = Ok (tt, h1) /\
    SimpleVector_destroy (elt := int_debug) (snd (SimpleVector_move vec_123)) h1
      = Ok (tt, h1).
Proof.
  assert (Hinv : invariant (elt := int_debug) heap_123 vec_123) by concrete.
  split; [exact Hinv|].
  destruct (SimpleVector_move_destroy_both (elt := int_debug) heap_123 vec_123 Hinv)
    as (h1 & H1 & H2 & _).
  exists h1. split; assumption.
Defined.

(** [{1, 2}] with capacity 3 equals [{1, 2}] with capacity 2. *)
Lemma operator_eq_spec_witness :
  invariant (elt := int_debug) heap_cmp vec_12 /\
  invariant (elt := int_debug) heap_cmp vec_b12 /\
  contents (elt := int_debug) heap_cmp vec_12 = Some <$> [1; 2] /\
  contents (elt := int_debug) heap_cmp vec_b12 = Some <$> [1; 2] /\
  operator_eq (cmp := int_compare_debug) vec_12 vec_b12 heap_cmp = Ok (true, heap_cmp) /\
  operator_ne (cmp := int_compare_debug) vec_12 vec_b12 heap_cmp = Ok (false, heap_cmp).
Proof.
  assert (Hi1 : invariant (elt := int_debug) heap_cmp vec_12) by concrete.
  assert (Hi2 : invariant (elt := int_debug) heap_cmp vec_b12) by concrete.
  assert (Hc1 : contents (elt := int_debug) heap_cmp vec_12 = Some <$> [1; 2])
    by reflexivity.
  assert (Hc2 : contents (elt := int_debug) heap_cmp vec_b12 = Some <$> [1; 2])
    by reflexivity.
  split; [exact Hi1|]. split; [exact Hi2|]. split; [exact Hc1|]. split; [exact Hc2|].
  destruct (operator_eq_spec (cmp := int_compare_debug) heap_cmp vec_12 vec_b12
              [1; 2] [1; 2] Hi1 Hi2 Hc1 Hc2) as (b & Heq & Hne & _ & _ & Hiff).
  assert (Hb : b = true) by (apply (Hiff int_eq_decides); reflexivity).
  rewrite Hb in Heq, Hne. split; assumption.
Defined.

(** [{1, 2} < {1, 2, 3}]: a proper prefix is less. *)
Lemma operator_lt_spec_witness :
  invariant (elt := int_debug) heap_cmp vec_b12 /\
  invariant (elt := int_debug) heap_cmp vec_123 /\
  contents (elt := int_debug) heap_cmp vec_b12 = Some <$> [1; 2] /\
  contents (elt := int_debug) heap_cmp vec_123 = Some <$> [1; 2; 3] /\
  lt_irreflexive (cmp := int_compare_debug) /\
  operator_lt (cmp := int_compare_debug) vec_b12 vec_123 heap_cmp = Ok (true, heap_cmp).
Proof.
  assert (Hi1 : invariant (elt := int_debug) heap_cmp vec_b12) by concrete.
  assert (Hi2 : invariant (elt := int_debug) heap_cmp vec_123) by concrete.
  assert (Hc1 : contents (elt := int_debug) heap_cmp vec_b12 = Some <$> [1; 2])
    by reflexivity.
  assert (Hc2 : contents (elt := int_debug) heap_cmp vec_123 = Some <$> [1; 2; 3])
    by reflexivity.
  split; [exact Hi1|]. split; [exact Hi2|]. split; [exact Hc1|]. split; [exact Hc2|].
  split; [exact int_lt_irreflexive|].
  destruct (operator_lt_spec (cmp := int_compare_debug) heap_cmp vec_b12 vec_123
              [1; 2] [1; 2; 3] Hi1 Hi2 Hc1 Hc2 int_lt_irreflexive)
    as (b & Hrun & Hprefix & _).
  assert (Hb : b = true) by (apply (Hprefix [3]); [discriminate|reflexivity]).
  now rewrite Hb in Hrun.
Defined.

(** [{1, 3} > {1, 2, 3}]: the first differing element decides. *)
Lemma operators_consistent_witness :
  invariant (elt := int_debug) heap_cmp vec_b13 /\
  invariant (elt := int_debug) heap_cmp vec_123 /\
  contents (elt := int_debug) heap_cmp vec_b13 = Some <$> [1; 3] /\
  contents (elt := int_debug) heap_cmp vec_123 = Some <$> [1; 2; 3] /\
  eq_decides (cmp := int_compare_debug) /\
  lt_strict_total (cmp := int_compare_debug) /\
  operator_gt (cmp := int_compare_debug) vec_b13 vec_123 heap_cmp = Ok (true, heap_cmp) /\
  operator_lt (cmp := int_compare_debug) vec_123 vec_b13 heap_cmp = Ok (true, heap_cmp) /\
  operator_le (cmp := int_compare_debug) vec_b13 vec_123 heap_cmp = Ok (false, heap_cmp).
Proof.
  assert (Hi1 : invariant (elt := int_debug) heap_cmp vec_b13) by concrete.
  assert (Hi2 : invariant (elt := int_debug) heap_cmp vec_123) by concrete.
  assert (Hc1 : contents (elt := int_debug) heap_cmp vec_b13 = Some <$> [1; 3])
    by reflexivity.
  assert (Hc2 : contents (elt := int_debug) heap_cmp vec_123 = Some <$> [1; 2; 3])
    by reflexivity.
  split; [exact Hi1|]. split; [exact Hi2|]. split; [exact Hc1|]. split; [exact Hc2|].
  split; [exact int_eq_decides|]. split; [exact int_lt_strict_total|].
  destruct (operators_consistent (cmp := int_compare_debug) heap_cmp vec_b13 vec_123
              [1; 3] [1; 2; 3] Hi1 Hi2 Hc1 Hc2 int_eq_decides int_lt_strict_total)
    as (lt & eq & gt & Hlt & Heq & Hgt & Hlt' & Hle & _).
  assert (Hg : gt = true).
  { assert (Hrun : operator_lt (cmp := int_compare_debug) vec_123 vec_b13 heap_cmp
                   = Ok (true, heap_cmp)) by reflexivity.
    rewrite Hrun in Hlt'. congruence. }
  rewrite Hg in Hgt, Hlt', Hle. repeat split; assumption.
Defined.

Lemma SimpleVector_copy_equal_witness :
  invariant (elt := int_debug) heap_123 vec_12 /\
  contents (elt := int_debug) heap_123 vec_12 = Some <$> [1; 2] /\
  (forall x, Ty_eqb (ElemCompare := int_compare_debug) x x = true) /\
  exists h' this,
    SimpleVector_copy (elt := int_debug) vec_12 heap_123 = Ok (this, h') /\
    operator_eq (cmp := int_compare_debug) this vec_12 h' = Ok (true, h').
Proof.
  assert (Hinv : invariant (elt := int_debug) heap_123 vec_12) by concrete.
  assert (Hc : contents (elt := int_debug) heap_123 vec_12 = Some <$> [1; 2])
    by reflexivity.
  assert (Hr : forall x, Ty_eqb (ElemCompare := int_compare_debug) x x = true)
    by (intros x; apply Z.eqb_refl).
  split; [exact Hinv|]. split; [exact Hc|]. split; [exact Hr|].
  destruct (SimpleVector_copy_equal (cmp := int_compare_debug) heap_123 vec_12 [1; 2]
              Hinv Hc Hr) as (h' & this & Hrun & Heq & _).
  exists h', this. split; assumption.
Defined.

(** [Reserve(3)] on [{1, 2}] with capacity 3 moves the elements to a new
    block whose spare slot holds the value-initialised 0. *)
Lemma Reserve_realloc_witness :
  invariant (elt := int_debug) heap_123 vec_12 /\
  capacity vec_12 <= 3 /\ 0 < 3 /\
  exists h' this',
    Reserve (elt := int_debug) vec_12 (Reserve_proxy 3) heap_123 = Ok (this', h') /\
    raw_ptr (array this') = Some 1%nat /\
    buffer (elt := int_debug) h' (array this') = [Some 1; Some 2; Some 0] /\
    load (elt := int_debug) (begin vec_12) h' = UB.
Proof.
  assert (Hinv : invariant (elt := int_debug) heap_123 vec_12) by concrete.
  assert (Hc : capacity vec_12 <= 3) by concrete.
  assert (Hp : 0 < 3) by lia.
  split; [exact Hinv|]. split; [exact Hc|]. split; [exact Hp|].
  destruct (Reserve_realloc (elt := int_debug) heap_123 vec_12 3 Hinv Hc Hp)
    as (h' & this' & Hrun & Ha & Hb & Hub).
  exists h', this'. repeat split; assumption.
Defined.

(** [Resize(4)] on [{1}] with capacity 3. *)
Lemma Resize_realloc_initialises_witness :
  invariant (elt := int_debug) heap_123 vec_1 /\
  size vec_1 < 4 /\ capacity vec_1 <= 4 /\
  exists h' this',
    Resize (elt := int_debug) vec_1 4 heap_123 = Ok (this', h') /\
    contents (elt := int_debug) h' this' = [Some 1; Some 0; Some 0; Some 0] /\
    load (elt := int_debug) (begin vec_1) h' = UB.
Proof.
  assert (Hinv : invariant (elt := int_debug) heap_123 vec_1) by concrete.
  assert (Hs : size vec_1 < 4) by concrete.
  assert (Hc : capacity vec_1 <= 4) by concrete.
  split; [exact Hinv|]. split; [exact Hs|]. split; [exact Hc|].
  destruct (Resize_realloc_initialises (elt := int_debug) heap_123 vec_1 4 Hinv Hs Hc)
    as (h' & this' & Hrun & Hcont & _ & Hub).
  exists h', this'. repeat split; assumption.
Defined.

(** [v = w] for [w = {1}] with capacity 3, then [v.Insert(v.begin(), 9)]
    through the move variant. *)
Lemma Insert_move_past_buffer_witness :
  assign (elt := int_debug) SimpleVector_default (Some vec_1) heap_123
    = Ok (vec_assigned, heap_assigned) /\
  slots (elt := int_debug) heap_assigned (array vec_assigned) = Some (size vec_assigned) /\
  size vec_assigned + 1 < capacity vec_assigned /\
  capacity vec_assigned < SIZE_MODULUS /\
  0 <= 0 <= size vec_assigned /\
  (0 < size vec_assigned \/ NDEBUG (ElemType := int_debug) = true) /\
  Insert_move (elt := int_debug) vec_assigned (ptr_add (begin vec_assigned) 0) 9
    heap_assigned = UB.
Proof.
  assert (Hs : slots (elt := int_debug) heap_assigned (array vec_assigned)
               = Some (size vec_assigned)) by reflexivity.
  assert (Hr : size vec_assigned + 1 < capacity vec_assigned) by concrete.
  assert (Hc : capacity vec_assigned < SIZE_MODULUS) by concrete.
  assert (Hn : 0 <= 0 <= size vec_assigned) by concrete.
  assert (Hp : 0 < size vec_assigned \/ NDEBUG (ElemType := int_debug) = true)
    by (left; concrete).
  split; [reflexivity|].
  split; [exact Hs|]. split; [exact Hr|]. split; [exact Hc|]. split; [exact Hn|].
  split; [exact Hp|].
  exact (Insert_move_past_buffer (elt := int_debug) heap_assigned vec_assigned 0 9
           Hs Hr Hc Hn Hp).
Defined.

(** One append to [{1}] with capacity 3 in a build with [NDEBUG]. *)
Lemma PushBack_all_in_place_witness :
  NDEBUG (ElemType := int_release) = true /\
  invariant (elt := int_release) heap_123 vec_1 /\
  capacity vec_1 * 2 < SIZE_MODULUS /\
  size vec_1 + Z.of_nat (length [9]) < capacity vec_1 /\
  exists h' this',
    PushBack_all (elt := int_release) vec_1 [9] heap_123 = Ok (this', h') /\
    array this' = array vec_1 /\
    capacity this' = 3 /\
    contents (elt := int_release) h' this' = [Some 1; Some 9].
Proof.
  assert (Hnd : NDEBUG (ElemType := int_release) = true) by reflexivity.
  assert (Hinv : invariant (elt := int_release) heap_123 vec_1) by concrete.
  assert (Hd : capacity vec_1 * 2 < SIZE_MODULUS) by concrete.
  assert (Hr : size vec_1 + Z.of_nat (length [9]) < capacity vec_1) by concrete.
  split; [exact Hnd|]. split; [exact Hinv|]. split; [exact Hd|]. split; [exact Hr|].
  destruct (PushBack_all_in_place (elt := int_release) [9] heap_123 vec_1
              Hnd Hinv Hd Hr) as (h' & this' & Hrun & Ha & Hc & _ & Hcont).
  exists h', this'. repeat split; assumption.
Defined.

(** [PushBack(const int&)] with [NDEBUG]: on [{1}] with capacity 3 (buffer
    still holding 2 behind the end) the result is [{1, 9, 2}]; on
    [{1, 2}] with capacity 3 the call is undefined. *)
Lemma PushBack_copy_release_witness :
  NDEBUG (ElemType := int_release) = true /\
  invariant (elt := int_release) heap_123 vec_1 /\
  invariant (elt := int_release) heap_123 vec_12 /\
  capacity vec_1 * 2 < SIZE_MODULUS /\
  (exists h' this',
     PushBack_copy (elt := int_release) vec_1 9 heap_123 = Ok (this', h') /\
     size this' = 3 /\
     contents (elt := int_release) h' this' = [Some 1; Some 9; Some 2]) /\
  PushBack_copy (elt := int_release) vec_12 9 heap_123 = UB.
Proof.
  assert (Hnd : NDEBUG (ElemType := int_release) = true) by reflexivity.
  assert (Hinv : invariant (elt := int_release) heap_123 vec_1) by concrete.
  assert (Hinv' : invariant (elt := int_release) heap_123 vec_12) by concrete.
  assert (Hd : capacity vec_1 * 2 < SIZE_MODULUS) by concrete.
  split; [exact Hnd|]. split; [exact Hinv|]. split; [exact Hinv'|]. split; [exact Hd|].
  split.
  - destruct (PushBack_copy_release (elt := int_release) heap_123 vec_1 9 Hnd Hinv Hd)
      as [Hroom _].
    destruct Hroom as (h' & this' & stale & Hrun & Hs & Hst & Hc); [concrete|].
    exists h', this'. split; [exact Hrun|]. split; [exact Hs|].
    assert (Heq : stale = Some 2) by (vm_compute in Hst; congruence).
    rewrite Heq in Hc. exact Hc.
  - destruct (PushBack_copy_release (elt := int_release) heap_123 vec_12 9 Hnd Hinv' Hd)
      as [_ Hfull].
    apply Hfull. concrete.
Defined.
